(** * Parallel task orchestration: resolver, event store, worker, orchestrator

    A shallow embedding of [src/orchestrator/orchestrator.py],
    [src/shared/event_store_v2.py], [src/shared/event_store.py],
    [src/shared/models.py] and [src/worker/worker.py], the properties the
    specification states about them, and further properties of the code.

    Conventions.
    - Python exceptions are values of [exn]; a computation that may raise
      returns a [result].
    - Code that threads the store through many calls runs in the state and
      error monad [M]; [try_except] is Python's [try: ... except Exception].
    - Python sets of names are [gset string]; dictionaries keyed by a primary
      key are [gmap string _]; tables with an autoincrement key are lists in
      insertion order.
    - Timestamps are whole seconds, as [Z] (SQLite's [datetime()] drops the
      fraction of a second). SQLite's [CURRENT_TIMESTAMP] and
      [datetime('now')] read the UTC clock; Python's naive [datetime.now()]
      reads the local time of the host, the UTC clock plus the host's offset. *)

From stdpp Require Import gmap strings list relations pretty sorting.

Open Scope string_scope.
Open Scope list_scope.
Open Scope Z_scope.

(** ** Exceptions, results and the state-and-error monad *)

(** The exception classes the modelled code raises or catches; all of them are
    subclasses of Python's [Exception]. [str e] is Python's [str(e)]. *)
Inductive exn : Type :=
  | ValueError (msg : string)
  | TypeError (msg : string)
  | AttributeError (msg : string)
  | TimeoutExpired (msg : string)
  | OperationalError (msg : string)
  | OtherException (msg : string).

Definition str (e : exn) : string :=
  match e with
  | ValueError m | TypeError m | AttributeError m | TimeoutExpired m
  | OperationalError m | OtherException m => m
  end.

Inductive result (A : Type) : Type :=
  | Ok (a : A)
  | Raise (e : exn).
Arguments Ok {A} a.
Arguments Raise {A} e.

Definition M (S A : Type) : Type := S → result A * S.

Definition ret {S A} (a : A) : M S A := λ s, (Ok a, s).

Definition raise {S A} (e : exn) : M S A := λ s, (Raise e, s).

Definition bind {S A B} (c : M S A) (k : A → M S B) : M S B := λ s,
  match c s with
  | (Ok a, s') => k a s'
  | (Raise e, s') => (Raise e, s')
  end.

(** [try: body except Exception as e: handler e]. The state changes the body
    made before raising stay (Python does not undo them). *)
Definition try_except {S A} (body : M S A) (handler : exn → M S A) : M S A := λ s,
  match body s with
  | (Ok a, s') => (Ok a, s')
  | (Raise e, s') => handler e s'
  end.

(** [for x in xs: body x], collecting the values of the body. *)
Fixpoint for_each {S A B} (xs : list A) (body : A → M S B) : M S (list B) :=
  match xs with
  | [] => ret []
  | x :: xs' => bind (body x) (λ b, bind (for_each xs' body) (λ bs, ret (b :: bs)))
  end.

(** [x ← c; k] and [c;; k] are stdpp's notations for [bind]. *)
Global Instance M_ret {S} : MRet (M S) := λ A, ret.
Global Instance M_bind {S} : MBind (M S) := λ A B k c, bind c k.

(** ** Task definitions ([orchestrator.py], [TaskDefinition]) *)

Record TaskDefinition : Type := {
  name : string;
  command : string;
  prompt : string;
  dependencies : list string;
  timeout : Z;
}.

Global Instance TaskDefinition_eq_dec : EqDecision TaskDefinition.
Proof. solve_decision. Defined.

(** ** Dependency validation and resolution ([orchestrator.py]) *)

Definition unknown_dependency_message (task dep : string) : string :=
  "Task '" +:+ task +:+ "' depends on unknown task '" +:+ dep +:+ "'".

Definition circular_dependency_message : string :=
  "Circular dependency detected in tasks".

(** The inner loop of [_validate_dependencies]: [for dep in task.dependencies]. *)
Fixpoint validate_deps (task_names : gset string) (task : string)
    (deps : list string) : result unit :=
  match deps with
  | [] => Ok tt
  | dep :: deps' =>
      if decide (dep ∈ task_names) then validate_deps task_names task deps'
      else Raise (ValueError (unknown_dependency_message task dep))
  end.

(** The outer loop: [for task in self.task_defs]. *)
Fixpoint validate_tasks (task_names : gset string)
    (tasks : list TaskDefinition) : result unit :=
  match tasks with
  | [] => Ok tt
  | task :: tasks' =>
      match validate_deps task_names (name task) (dependencies task) with
      | Ok _ => validate_tasks task_names tasks'
      | Raise e => Raise e
      end
  end.

Definition _validate_dependencies (task_defs : list TaskDefinition) : result unit :=
  let task_names : gset string := list_to_set (name <$> task_defs) in
  validate_tasks task_names task_defs.

(** [task.name not in completed and all(dep in completed for dep in
    task.dependencies)] *)
Definition is_ready (completed : gset string) (task : TaskDefinition) : Prop :=
  (name task ∉ completed) ∧ Forall (λ dep, dep ∈ completed) (dependencies task).

Global Instance is_ready_dec completed task : Decision (is_ready completed task).
Proof. unfold is_ready. apply _. Defined.

(** One pass of the inner [for task in self.task_defs] loop. *)
Definition ready_tasks (task_defs : list TaskDefinition)
    (completed : gset string) : list TaskDefinition :=
  filter (is_ready completed) task_defs.

Definition names_of (batch : list TaskDefinition) : gset string :=
  list_to_set (name <$> batch).

(** The [while len(completed) < len(self.task_defs)] loop. The loop is bounded
    by [fuel] iterations; [None] is "fuel ran out", which
    [resolve_loop_total] below shows cannot happen with the fuel
    [_resolve_dependencies] gives. *)
Fixpoint resolve_loop (fuel : nat) (task_defs : list TaskDefinition)
    (completed : gset string) (batches : list (list TaskDefinition))
    : option (result (list (list TaskDefinition))) :=
  match fuel with
  | O => None
  | S fuel' =>
      if decide (size completed < length task_defs)%nat then
        let ready := ready_tasks task_defs completed in
        match ready with
        | [] => Some (Raise (ValueError circular_dependency_message))
        | _ :: _ =>
            resolve_loop fuel' task_defs (completed ∪ names_of ready)
              (batches ++ [ready])
        end
      else Some (Ok batches)
  end.

Definition _resolve_dependencies (task_defs : list TaskDefinition)
    : option (result (list (list TaskDefinition))) :=
  resolve_loop (S (length task_defs)) task_defs ∅ [].

(** The dependency relation on task names: [a] names a task of the list that
    lists [b] among its dependencies. *)
Definition depends_on (task_defs : list TaskDefinition) (a b : string) : Prop :=
  ∃ task, task ∈ task_defs ∧ name task = a ∧ b ∈ dependencies task.

(** A cycle is a name that reaches itself in one or more dependency steps. *)
Definition has_cycle (task_defs : list TaskDefinition) : Prop :=
  ∃ a, tc (depends_on task_defs) a a.

Definition acyclic (task_defs : list TaskDefinition) : Prop :=
  ∀ a, ¬ tc (depends_on task_defs) a a.

(** Every dependency names a task of the list. *)
Definition valid_dependencies (task_defs : list TaskDefinition) : Prop :=
  ∀ task dep, task ∈ task_defs → dep ∈ dependencies task →
    ∃ task', task' ∈ task_defs ∧ name task' = dep.

(** A task set: no two tasks share a name. *)
Definition distinct_names (task_defs : list TaskDefinition) : Prop :=
  NoDup (name <$> task_defs).

(** The rounds of the loop, as a predicate on the batches appended from a
    given [completed] on (used in the proofs): each batch is the ready list of
    its round, is not empty, and was collected while the loop condition held. *)
Fixpoint rounds (task_defs : list TaskDefinition) (completed : gset string)
    (bs : list (list TaskDefinition)) : Prop :=
  match bs with
  | [] => True
  | b :: bs' =>
      b = ready_tasks task_defs completed ∧ b ≠ []
      ∧ (size completed < length task_defs)%nat
      ∧ rounds task_defs (completed ∪ names_of b) bs'
  end.

Definition mk_task (n : string) (deps : list string) : TaskDefinition :=
  {| name := n; command := "true"; prompt := EmptyString;
     dependencies := deps; timeout := 300 |}.

(** ** The SQLite event store ([event_store_v2.py]) *)

Module EventType.
Inductive t : Type :=
  | START | PROGRESS | ARTIFACT | ERROR | DONE
  | MERGE_READY | HEARTBEAT | BLOCKED | UNBLOCKED.

Global Instance eq_dec : EqDecision t.
Proof. solve_decision. Defined.
End EventType.

Module WorkerState.
Inductive t : Type :=
  | IDLE | BUSY | BLOCKED | ERROR | DONE | DEAD.

Global Instance eq_dec : EqDecision t.
Proof. solve_decision. Defined.

End WorkerState.

(** The terminal worker states of the specification: done, error, dead. *)
Definition terminal (s : WorkerState.t) : Prop :=
  s = WorkerState.DONE ∨ s = WorkerState.ERROR ∨ s = WorkerState.DEAD.

Global Instance terminal_dec s : Decision (terminal s).
Proof. unfold terminal. apply _. Defined.

(** The JSON payload of an event, one variant per shape the repository writes;
    [PEmpty] is the empty dictionary. *)
Inductive payload : Type :=
  | PEmpty
  | PStart (command : string) (prompt : option string)
  | PProgress (percent : Z) (message : string)
  | PArtifact (path : string)
  | PError (error : string)
  | PDone (success : bool).

(** Python truthiness of a dictionary: [{}] is false. *)
Definition payload_truthy (p : payload) : bool :=
  match p with PEmpty => false | _ => true end.

(** [json_extract(payload, '$.path')] *)
Definition json_extract_path (p : option payload) : option string :=
  match p with
  | Some (PArtifact path) => Some path
  | _ => None
  end.

Record event_row : Type := {
  ev_id : Z;
  ev_timestamp : Z;
  ev_run_id : string;
  ev_worker_id : option string;
  ev_event_type : EventType.t;
  ev_task_id : option string;
  ev_payload : option payload;
}.

Record worker_row : Type := {
  w_run_id : string;
  w_task_id : option string;
  w_state : WorkerState.t;
  w_pid : option Z;
  w_started_at : option Z;
  w_last_heartbeat : option Z;
  w_progress : Z;
  w_last_message : option string;
}.

Record task_row : Type := {
  t_run_id : string;
  t_description : string;
  t_dependencies : list string;
  t_state : string;
  t_assigned_worker : option string;
}.

Record block_row : Type := {
  b_id : Z;
  b_worker_id : string;
  b_hook_event : string;
  b_created_at : Z;
  b_expires_at : Z;
  b_reason : string;
  b_retry_count : Z;
  b_max_retries : Z;
}.

Global Instance block_row_eq_dec : EqDecision block_row.
Proof. solve_decision. Defined.

(** A task of a plan: [models.Task], with its fields [id], [description] and
    [deps] ([inputs], [outputs] and [worker_hint] are left out). *)
Record plan_task : Type := {
  pt_id : string;
  pt_description : string;
  pt_deps : list string;
}.

Record plan_row : Type := {
  p_created_at : Z;
  p_prompt : string;
  p_plan : list plan_task;
  p_state : string;
}.

(** The database: one field per table. [events] and [blocks] are in rowid
    order; [events_seq] and [blocks_seq] are the AUTOINCREMENT counters. *)
Record db : Type := {
  events : list event_row;
  events_seq : Z;
  workers : gmap string worker_row;
  tasks : gmap string task_row;
  blocks : list block_row;
  blocks_seq : Z;
  plans : gmap string plan_row;
}.

Definition set_events (f : list event_row → list event_row) (g : Z → Z) (d : db) : db :=
  {| events := f (events d); events_seq := g (events_seq d);
     workers := workers d; tasks := tasks d; blocks := blocks d;
     blocks_seq := blocks_seq d; plans := plans d |}.

Definition set_workers (f : gmap string worker_row → gmap string worker_row) (d : db) : db :=
  {| events := events d; events_seq := events_seq d;
     workers := f (workers d); tasks := tasks d; blocks := blocks d;
     blocks_seq := blocks_seq d; plans := plans d |}.

Definition set_blocks (f : list block_row → list block_row) (g : Z → Z) (d : db) : db :=
  {| events := events d; events_seq := events_seq d;
     workers := workers d; tasks := tasks d; blocks := f (blocks d);
     blocks_seq := g (blocks_seq d); plans := plans d |}.

Definition empty_db : db :=
  {| events := []; events_seq := 0; workers := ∅; tasks := ∅; blocks := [];
     blocks_seq := 0; plans := ∅ |}.

(** A connection in autocommit mode. [data] is what the connection sees;
    [snapshot] is [Some d] inside an explicit transaction begun when the
    database was [d]. [faults] scripts the failures of the coming statements:
    the head is consumed by each statement, and [true] makes it raise
    [sqlite3.OperationalError]. [clock] is the UTC wall clock, which SQLite
    reads; [utc_offset] is how far the local time of the host is ahead of
    it. *)
Record conn : Type := {
  data : db;
  snapshot : option db;
  faults : list bool;
  clock : Z;
  utc_offset : Z;
}.

(** A connection at rest on a host whose local time is UTC. *)
Definition open_conn (d : db) (now : Z) : conn :=
  {| data := d; snapshot := None; faults := []; clock := now; utc_offset := 0 |}.

Definition set_clock (now : Z) (c : conn) : conn :=
  {| data := data c; snapshot := snapshot c; faults := faults c; clock := now;
     utc_offset := utc_offset c |}.

Definition set_faults (fs : list bool) (c : conn) : conn :=
  {| data := data c; snapshot := snapshot c; faults := fs; clock := clock c;
     utc_offset := utc_offset c |}.

Definition set_utc_offset (offset : Z) (c : conn) : conn :=
  {| data := data c; snapshot := snapshot c; faults := faults c; clock := clock c;
     utc_offset := offset |}.

(** [datetime.now()]: the naive local time of the host. *)
Definition datetime_now : M conn Z := λ c, (Ok (clock c + utc_offset c), c).

(** [conn.execute(stmt)] for a data statement: [stmt now d] is the value read
    and the database written, [now] being the UTC clock. *)
Definition conn_execute {A} (stmt : Z → db → A * db) : M conn A := λ c,
  match faults c with
  | true :: fs =>
      (Raise (OperationalError "database is locked"),
       {| data := data c; snapshot := snapshot c; faults := fs; clock := clock c;
          utc_offset := utc_offset c |})
  | _ =>
      let '(a, d) := stmt (clock c) (data c) in
      (Ok a, {| data := d; snapshot := snapshot c; faults := tail (faults c);
                clock := clock c; utc_offset := utc_offset c |})
  end.

(** [conn.execute("BEGIN")] *)
Definition sql_begin : M conn unit := λ c,
  match faults c with
  | true :: fs =>
      (Raise (OperationalError "database is locked"),
       {| data := data c; snapshot := snapshot c; faults := fs; clock := clock c;
          utc_offset := utc_offset c |})
  | _ =>
      match snapshot c with
      | Some _ =>
          (Raise (OperationalError "cannot start a transaction within a transaction"),
           {| data := data c; snapshot := snapshot c; faults := tail (faults c);
              clock := clock c; utc_offset := utc_offset c |})
      | None =>
          (Ok tt, {| data := data c; snapshot := Some (data c);
                     faults := tail (faults c); clock := clock c;
                     utc_offset := utc_offset c |})
      end
  end.

(** [conn.execute("COMMIT")] *)
Definition sql_commit : M conn unit := λ c,
  match faults c with
  | true :: fs =>
      (Raise (OperationalError "database is locked"),
       {| data := data c; snapshot := snapshot c; faults := fs; clock := clock c;
          utc_offset := utc_offset c |})
  | _ =>
      match snapshot c with
      | Some _ =>
          (Ok tt, {| data := data c; snapshot := None;
                     faults := tail (faults c); clock := clock c;
                     utc_offset := utc_offset c |})
      | None =>
          (Raise (OperationalError "cannot commit - no transaction is active"),
           {| data := data c; snapshot := snapshot c; faults := tail (faults c);
              clock := clock c; utc_offset := utc_offset c |})
      end
  end.

(** [conn.execute("ROLLBACK")]: restores the database of the matching BEGIN.
    A rollback is taken not to fail while a transaction is open. *)
Definition sql_rollback : M conn unit := λ c,
  match snapshot c with
  | Some d =>
      (Ok tt, {| data := d; snapshot := None; faults := faults c; clock := clock c;
                 utc_offset := utc_offset c |})
  | None =>
      (Raise (OperationalError "cannot rollback - no transaction is active"), c)
  end.

(** The context manager [transaction]: the body of the [with] block is [body]. *)
Definition transaction {A} (body : M conn A) : M conn A :=
  sql_begin;;
  try_except
    (a ← body; sql_commit;; ret a)
    (λ e, sql_rollback;; raise e).

(** *** Statements *)

(** [INSERT INTO events (...) VALUES (...)]; the value is [cursor.lastrowid]. *)
Definition sql_insert_event (run_id : string) (worker_id : option string)
    (event_type : EventType.t) (task_id : option string) (p : option payload)
    (now : Z) (d : db) : Z * db :=
  let id := events_seq d + 1 in
  let row := {| ev_id := id; ev_timestamp := now; ev_run_id := run_id;
                ev_worker_id := worker_id; ev_event_type := event_type;
                ev_task_id := task_id; ev_payload := p |} in
  (id, set_events (λ es, es ++ [row]) (λ _, id) d).

(** [SELECT id FROM workers WHERE id = ?], then [fetchone() is not None]. *)
Definition sql_worker_exists (worker_id : string) (now : Z) (d : db) : bool * db :=
  (match workers d !! worker_id with Some _ => true | None => false end, d).

(** [UPDATE workers SET last_heartbeat = CURRENT_TIMESTAMP, ... WHERE id = ?]
    with the assignments [update_worker_status] collects in [updates]. *)
Definition updated_worker (state : option WorkerState.t) (progress : option Z)
    (task_id message : option string) (now : Z) (w : worker_row) : worker_row :=
  {| w_run_id := w_run_id w;
     w_task_id := match task_id with Some t => Some t | None => w_task_id w end;
     w_state := match state with Some s => s | None => w_state w end;
     w_pid := w_pid w;
     w_started_at := w_started_at w;
     w_last_heartbeat := Some now;
     w_progress := match progress with Some p => p | None => w_progress w end;
     w_last_message :=
       match message with Some m => Some m | None => w_last_message w end |}.

Definition sql_update_worker (worker_id : string) (state : option WorkerState.t)
    (progress : option Z) (task_id message : option string)
    (now : Z) (d : db) : unit * db :=
  (tt, set_workers (alter (updated_worker state progress task_id message now) worker_id) d).

(** [INSERT INTO workers (id, run_id, state, progress, task_id, last_message,
    started_at, last_heartbeat) VALUES (?, ?, ?, ?, ?, ?, CURRENT_TIMESTAMP,
    CURRENT_TIMESTAMP)] *)
Definition sql_insert_worker (worker_id run_id : string) (state : WorkerState.t)
    (progress : Z) (task_id message : option string)
    (now : Z) (d : db) : unit * db :=
  let row := {| w_run_id := run_id; w_task_id := task_id; w_state := state;
                w_pid := None; w_started_at := Some now;
                w_last_heartbeat := Some now; w_progress := progress;
                w_last_message := message |} in
  (tt, set_workers (insert worker_id row) d).

(** The row [ORDER BY created_at DESC LIMIT 1] keeps: a row of greatest
    [created_at]. SQL leaves the choice among rows of equal [created_at] open;
    the one of least rowid is taken here. *)
Definition later_block (acc : option block_row) (r : block_row) : option block_row :=
  match acc with
  | None => Some r
  | Some a => if decide (b_created_at a < b_created_at r) then Some r else Some a
  end.

Definition latest_block (rows : list block_row) : option block_row :=
  foldl later_block None rows.

Definition block_matches (worker_id hook_event : string) (r : block_row) : Prop :=
  b_worker_id r = worker_id ∧ b_hook_event r = hook_event.

Global Instance block_matches_dec w h r : Decision (block_matches w h r).
Proof. unfold block_matches. apply _. Defined.

(** [SELECT retry_count FROM blocks WHERE worker_id = ? AND hook_event = ?
    ORDER BY created_at DESC LIMIT 1], then [fetchone()]. *)
Definition sql_latest_retry_count (worker_id hook_event : string)
    (now : Z) (d : db) : option Z * db :=
  (b_retry_count <$> latest_block (filter (block_matches worker_id hook_event) (blocks d)), d).

(** [INSERT INTO blocks (worker_id, hook_event, expires_at, reason,
    retry_count, max_retries) VALUES (...)]; [created_at] defaults to
    [CURRENT_TIMESTAMP]. *)
Definition new_block (id : Z) (worker_id hook_event : string) (expires_at : Z)
    (reason : string) (retry_count max_retries : Z) (now : Z) : block_row :=
  {| b_id := id; b_worker_id := worker_id; b_hook_event := hook_event;
     b_created_at := now; b_expires_at := expires_at; b_reason := reason;
     b_retry_count := retry_count; b_max_retries := max_retries |}.

Definition sql_insert_block (worker_id hook_event : string) (expires_at : Z)
    (reason : string) (retry_count max_retries : Z) (now : Z) (d : db) : unit * db :=
  let id := blocks_seq d + 1 in
  (tt, set_blocks
         (λ bs, bs ++ [new_block id worker_id hook_event expires_at reason
                         retry_count max_retries now])
         (λ _, id) d).

(** [DELETE FROM blocks WHERE datetime(expires_at) < datetime('now')] *)
Definition sql_delete_expired_blocks (now : Z) (d : db) : unit * db :=
  (tt, set_blocks (filter (λ r, ¬ b_expires_at r < now)) id d).

(** [SELECT * FROM blocks WHERE datetime(expires_at) > datetime('now')
    [AND hook_event = ?]]; the filter is added by [if hook_event:], so neither
    for [None] nor for the empty string. *)
Definition hook_filter (hook_event : option string) (r : block_row) : Prop :=
  match hook_event with
  | None => True
  | Some h => if decide (h = EmptyString) then True else b_hook_event r = h
  end.

Global Instance hook_filter_dec h r : Decision (hook_filter h r).
Proof. unfold hook_filter. destruct h; [case_decide|]; apply _. Defined.

Definition sql_select_active_blocks (hook_event : option string)
    (now : Z) (d : db) : list block_row * db :=
  (filter (λ r, now < b_expires_at r ∧ hook_filter hook_event r) (blocks d), d).

(** The [WHERE] clause of [get_ready_artifacts], for one event row joined with
    the task row of its [task_id]. *)
Definition artifact_of_completed_task (d : db) (run_id : string) (e : event_row)
    : option string :=
  match ev_task_id e with
  | None => None
  | Some task_id =>
      match tasks d !! task_id with
      | None => None
      | Some t =>
          if decide (ev_event_type e = EventType.ARTIFACT
                     ∧ t_state t = "completed" ∧ ev_run_id e = run_id)
          then json_extract_path (ev_payload e)
          else None
      end
  end.

(** [SELECT DISTINCT json_extract(e.payload, '$.path') as path FROM events e
    JOIN tasks t ON e.task_id = t.id WHERE e.event_type = 'artifact' AND
    t.state = 'completed' AND e.run_id = ? AND json_extract(e.payload,
    '$.path') IS NOT NULL] *)
Definition sql_select_ready_artifacts (run_id : string)
    (now : Z) (d : db) : list string * db :=
  (remove_dups (omap (artifact_of_completed_task d run_id) (events d)), d).

(** A filter [get_events] adds with [if arg:] on a text column: none for
    [None] and for the empty string; a [NULL] column matches no value. *)
Definition column_is (arg : option string) (column : option string) : Prop :=
  match arg with
  | None => True
  | Some v => if decide (v = EmptyString) then True else column = Some v
  end.

Global Instance column_is_dec arg column : Decision (column_is arg column).
Proof. unfold column_is. destruct arg; [case_decide|]; apply _. Defined.

(** The [WHERE] clause [get_events] builds. A member of [EventType] is always
    true, so the type is filtered on whenever one is given. *)
Definition event_selected (run_id worker_id task_id : option string)
    (event_type : option EventType.t) (e : event_row) : Prop :=
  column_is run_id (Some (ev_run_id e))
  ∧ column_is worker_id (ev_worker_id e)
  ∧ column_is task_id (ev_task_id e)
  ∧ match event_type with
    | None => True
    | Some et => ev_event_type e = et
    end.

Global Instance event_selected_dec r w t et e : Decision (event_selected r w t et e).
Proof. unfold event_selected. destruct et; apply _. Defined.

(** [ORDER BY timestamp DESC, id DESC]: [a] is listed no later than [b]. *)
Definition newer (a b : event_row) : Prop :=
  ev_timestamp b < ev_timestamp a
  ∨ (ev_timestamp a = ev_timestamp b ∧ ev_id b ≤ ev_id a).

Global Instance newer_dec a b : Decision (newer a b).
Proof. unfold newer. apply _. Defined.

(** [LIMIT ? OFFSET ?]: SQLite reads a negative limit as no limit and a
    negative offset as 0. *)
Definition sql_limit_offset {A} (limit offset : Z) (rows : list A) : list A :=
  let rest := drop (Z.to_nat offset) rows in
  if decide (limit < 0) then rest else take (Z.to_nat limit) rest.

(** [SELECT * FROM events WHERE 1=1 [AND run_id = ?] [AND worker_id = ?]
    [AND task_id = ?] [AND event_type = ?] ORDER BY timestamp DESC, id DESC
    LIMIT ? OFFSET ?] *)
Definition sql_select_events (run_id worker_id task_id : option string)
    (event_type : option EventType.t) (limit offset : Z)
    (now : Z) (d : db) : list event_row * db :=
  (sql_limit_offset limit offset
     (merge_sort newer
        (filter (event_selected run_id worker_id task_id event_type) (events d))), d).

(** The [WHERE] clause of [detect_dead_workers], for a row and the bound
    [datetime('now', '-N seconds')]. A [NULL] heartbeat compares as unknown. *)
Definition silent_since (bound : Z) (row : worker_row) : Prop :=
  (w_state row = WorkerState.BUSY ∨ w_state row = WorkerState.BLOCKED)
  ∧ match w_last_heartbeat row with
    | Some heartbeat => heartbeat < bound
    | None => False
    end.

Global Instance silent_since_dec bound row : Decision (silent_since bound row).
Proof. unfold silent_since. destruct (w_last_heartbeat row); apply _. Defined.

(** [SELECT * FROM workers WHERE state IN ('busy', 'blocked') AND
    datetime(last_heartbeat) < datetime('now', ? || ' seconds')] with the
    parameter [f'-{timeout_seconds}']. For a negative [timeout_seconds] the
    modifier reads [--N seconds], which SQLite rejects: [datetime] is then
    [NULL] and no row is selected. The rows come with their primary key, in
    no particular order. *)
Definition sql_select_dead_workers (timeout_seconds : Z)
    (now : Z) (d : db) : list (string * worker_row) * db :=
  (if decide (timeout_seconds < 0) then []
   else map_to_list
          (filter (λ kv, silent_since (now - timeout_seconds) (snd kv)) (workers d)), d).

(** *** Operations of [EventStoreV2] *)

Definition append_event (event_type : EventType.t) (run_id : string)
    (worker_id task_id : option string) (p : option payload) : M conn Z :=
  transaction
    (conn_execute
       (sql_insert_event run_id worker_id event_type task_id
          (match p with
           | Some p' => if payload_truthy p' then Some p' else None
           | None => None
           end))).

Definition update_worker_status (worker_id run_id : string)
    (state : option WorkerState.t) (progress : option Z)
    (task_id message : option string) : M conn unit :=
  transaction
    (exists_ ← conn_execute (sql_worker_exists worker_id);
     if (exists_ : bool) then
       conn_execute (sql_update_worker worker_id state progress task_id message)
     else
       conn_execute
         (sql_insert_worker worker_id run_id
            (default WorkerState.IDLE state) (default 0 progress) task_id message)).

Definition get_worker_status (worker_id : string) : M conn (option worker_row) :=
  conn_execute (λ _ d, (workers d !! worker_id, d)).

Definition create_block (worker_id hook_event reason : string)
    (duration_seconds max_retries : Z) : M conn bool :=
  transaction
    (row ← conn_execute (sql_latest_retry_count worker_id hook_event);
     let retry_count := match row with Some rc => rc + 1 | None => 0 end in
     if decide (retry_count >= max_retries) then ret false
     else
       now ← datetime_now;
       let expires_at := now + duration_seconds in
       conn_execute
         (sql_insert_block worker_id hook_event expires_at reason
            retry_count max_retries);;
       ret true).

Definition get_active_blocks (hook_event : option string) : M conn (list block_row) :=
  conn_execute sql_delete_expired_blocks;;
  conn_execute (sql_select_active_blocks hook_event).

Definition get_ready_artifacts (run_id : string) : M conn (list string) :=
  conn_execute (sql_select_ready_artifacts run_id).

Definition get_events (run_id worker_id task_id : option string)
    (event_type : option EventType.t) (limit offset : Z) : M conn (list event_row) :=
  conn_execute (sql_select_events run_id worker_id task_id event_type limit offset).

Definition detect_dead_workers (timeout_seconds : Z) : M conn (list (string * worker_row)) :=
  conn_execute (sql_select_dead_workers timeout_seconds).

(** *** Reading the store

    Definitions the properties below are stated with. *)

(** A connection at rest: no transaction open, no failure scripted. *)
Definition calm (c : conn) : Prop := snapshot c = None ∧ faults c = [].

Definition with_data (d : db) (c : conn) : conn :=
  {| data := d; snapshot := snapshot c; faults := faults c; clock := clock c;
     utc_offset := utc_offset c |}.

(** The worker table after [update_worker_status]. *)
Definition upsert_worker (worker_id run_id : string) (state : option WorkerState.t)
    (progress : option Z) (task_id message : option string) (now : Z)
    (m : gmap string worker_row) : gmap string worker_row :=
  match m !! worker_id with
  | Some _ => alter (updated_worker state progress task_id message now) worker_id m
  | None =>
      <[worker_id := {| w_run_id := run_id; w_task_id := task_id;
                        w_state := default WorkerState.IDLE state;
                        w_pid := None; w_started_at := Some now;
                        w_last_heartbeat := Some now;
                        w_progress := default 0 progress;
                        w_last_message := message |}]> m
  end.

Definition next_retry_count (rows : list block_row) (worker_id hook_event : string) : Z :=
  match latest_block (filter (block_matches worker_id hook_event) rows) with
  | Some r => b_retry_count r + 1
  | None => 0
  end.

(** The database after an accepted [create_block] made when the local time of
    the host is [local_now] and the UTC clock reads [now]. *)
Definition with_new_block (worker_id hook_event reason : string)
    (duration_seconds max_retries local_now now : Z) (d : db) : db :=
  set_blocks
    (λ bs, bs ++ [new_block (blocks_seq d + 1) worker_id hook_event
                    (local_now + duration_seconds) reason
                    (next_retry_count (blocks d) worker_id hook_event)
                    max_retries now])
    (λ _, blocks_seq d + 1) d.

(** What [get_active_blocks] returns; the empty list if it raises. *)
Definition active_blocks (hook_event : option string) (c : conn) : list block_row :=
  match fst (get_active_blocks hook_event c) with
  | Ok rows => rows
  | Raise _ => []
  end.





(** The arguments of one call of [update_worker_status]. *)
Record status_update : Type := {
  u_worker_id : string;
  u_run_id : string;
  u_state : option WorkerState.t;
  u_progress : option Z;
  u_task_id : option string;
  u_message : option string;
}.

Definition apply_update (c : conn) (u : status_update) : conn :=
  snd (update_worker_status (u_worker_id u) (u_run_id u) (u_state u)
         (u_progress u) (u_task_id u) (u_message u) c).

(** The state column of a worker's row. *)
Definition worker_state (c : conn) (worker_id : string) : option WorkerState.t :=
  w_state <$> workers (data c) !! worker_id.

(** An update that cannot take the worker out of a terminal state: it is for
    another worker, or passes no state, or passes a terminal state. *)
Definition keeps_terminal (worker_id : string) (u : status_update) : Prop :=
  u_worker_id u = worker_id →
  match u_state u with
  | None => True
  | Some s => terminal s
  end.

(** The database after an event is appended. *)
Definition event_effect (et : EventType.t) (run_id : string)
    (worker_id task_id : option string) (p : option payload) (now : Z) (d : db) : db :=
  snd (sql_insert_event run_id worker_id et task_id
         (match p with
          | Some p' => if payload_truthy p' then Some p' else None
          | None => None
          end) now d).

(** The events a step appended, oldest first. *)
Definition appended (before after : db) : list event_row :=
  drop (length (events before)) (events after).

(** An events table written under a clock that did not go backwards: going
    down the table the timestamps do not decrease and the ids increase, and no
    id is above the AUTOINCREMENT counter. *)
Definition chronological (d : db) : Prop :=
  StronglySorted (λ a b, ev_timestamp a ≤ ev_timestamp b ∧ ev_id a < ev_id b) (events d)
  ∧ Forall (λ e, ev_id e ≤ events_seq d) (events d).

(** No event of the table is stamped later than [now]. *)
Definition written_by (now : Z) (d : db) : Prop :=
  Forall (λ e, ev_timestamp e ≤ now) (events d).

(** The outcomes of successive calls [create_block(worker_id, hook_event,
    reason, duration_seconds, max_retries)], made when the clock reads the
    times of [times]. *)
Fixpoint repeated_create_block (worker_id hook_event reason : string)
    (duration_seconds max_retries : Z) (times : list Z) (c : conn)
    : list (result bool) :=
  match times with
  | [] => []
  | now :: times' =>
      let out := create_block worker_id hook_event reason duration_seconds
                   max_retries (set_clock now c) in
      fst out :: repeated_create_block worker_id hook_event reason duration_seconds
                   max_retries times' (snd out)
  end.

(** What [detect_dead_workers] returns, as the set of worker ids; empty if it
    raises. *)
Definition dead_workers (timeout_seconds : Z) (c : conn) : gset string :=
  match fst (detect_dead_workers timeout_seconds c) with
  | Ok rows => list_to_set (fst <$> rows)
  | Raise _ => ∅
  end.

(** *** The store as [worker.py] and [orchestrator.py] call it

    The worker and the orchestrator call the store with other names and other
    arguments than [event_store_v2.py] defines. Each such call is what Python
    makes of it; the texts of the exceptions are those of CPython 3.12. *)

(** [obj.attr] for an attribute the object does not have. *)
Definition no_attribute (type_name attr : string) : exn :=
  AttributeError ("'" +:+ type_name +:+ "' object has no attribute '" +:+ attr +:+ "'").

(** A call with a keyword argument the function has no parameter for. *)
Definition unexpected_keyword (function keyword : string) : exn :=
  TypeError (function +:+ "() got an unexpected keyword argument '" +:+ keyword +:+ "'").

(** What a caller may pass for the parameter [event_type] of [append_event],
    whose annotation Python does not check: a member of the store's
    [EventType], or a [str]. *)
Inductive event_type_arg : Type :=
  | Member (t : EventType.t)
  | Str (s : string).

(** [event_type.value]: the value of a member is what the column holds; a
    [str] has no such attribute. *)
Definition value_of {S} (event_type : event_type_arg) : M S EventType.t :=
  match event_type with
  | Member t => ret t
  | Str _ => raise (no_attribute "str" "value")
  end.

(** [append_event] at any argument: the transaction is opened, then the
    parameters of the INSERT are built, [event_type.value] among them, then
    the statement is executed. *)
Definition append_event_any (event_type : event_type_arg) (run_id : string)
    (worker_id task_id : option string) (p : option payload) : M conn Z :=
  transaction
    (et ← value_of event_type;
     conn_execute
       (sql_insert_event run_id worker_id et task_id
          (match p with
           | Some p' => if payload_truthy p' then Some p' else None
           | None => None
           end))).

(** [self.store.append_event(run_id=..., worker_id=...,
    event_type=EventType.X.value, task_id=..., payload=...)]: the argument
    [event_type] is the value of the member, a [str]. *)
Definition append_event_by_value (event_type run_id : string)
    (worker_id task_id : option string) (p : option payload) : M conn Z :=
  append_event_any (Str event_type) run_id worker_id task_id p.

(** [self.store.update_worker_status(worker_id=..., state="...",
    progress=..., last_message=...)]: [update_worker_status] has no parameter
    [last_message] (its keyword is [message]), and its parameter [run_id] gets
    no argument. Binding the arguments raises [TypeError]; the body does not
    run. *)
Definition update_worker_status_by_value (worker_id state : string)
    (progress : option Z) (last_message : option string) : M conn unit :=
  raise (unexpected_keyword "EventStoreV2.update_worker_status" "last_message").

(** [self.store.create_worker(worker_id, run_id, task_id)]: [EventStoreV2]
    defines no [create_worker]; looking the attribute up raises
    [AttributeError]. *)
Definition create_worker (worker_id run_id task_id : string) : M conn unit :=
  raise (no_attribute "EventStoreV2" "create_worker").

(** [self.store.create_plan(run_id=..., prompt=..., tasks=...)]:
    [EventStoreV2] defines no [create_plan] either. *)
Definition create_plan (run_id prompt : string) (tasks : list plan_task) : M conn unit :=
  raise (no_attribute "EventStoreV2" "create_plan").
(** ** Subprocesses *)

(** What [subprocess.run] returns, or what [proc.communicate()] leaves behind:
    the exit code and the decoded output. *)
Record CompletedProcess : Type := {
  returncode : Z;
  stdout : string;
  stderr : string;
}.

(** What running a command does, as the environment decides it: it completes,
    or the call raises. A timeout is [Raises (TimeoutExpired _)]
    ([subprocess.TimeoutExpired] for the worker, [asyncio.TimeoutError] for the
    orchestrator); anything else the launch, the wait or the handling of the
    output raises is another exception. *)
Inductive run_outcome : Type :=
  | Completes (r : CompletedProcess)
  | Raises (e : exn).

Definition subprocess_run {S} (o : run_outcome) : M S CompletedProcess :=
  match o with
  | Completes r => ret r
  | Raises e => raise e
  end.

(** ** Paths ([pathlib], on a POSIX host) *)

Module Path.

(** A path: its root ([""], ["/"] or ["//"]) and its components. *)
Record t : Type := {
  root : string;
  parts : list string;
}.

(** The character [/]. *)
Definition slash : Ascii.ascii := Ascii.ascii_of_nat 47.

(** [s.split("/")] *)
Fixpoint split_slash (s : string) : list string :=
  match s with
  | EmptyString => [EmptyString]
  | String c s' =>
      if decide (c = slash) then EmptyString :: split_slash s'
      else match split_slash s' with
           | x :: xs => String c x :: xs
           | [] => [String c EmptyString]
           end
  end.

Fixpoint leading_slashes (s : string) : nat :=
  match s with
  | EmptyString => 0
  | String c s' => if decide (c = slash) then S (leading_slashes s') else 0
  end.

(** The root of a path string: two leading slashes are kept, any other
    number of them is one. *)
Definition root_of (s : string) : string :=
  match leading_slashes s with
  | 0%nat => EmptyString
  | 2%nat => "//"
  | _ => "/"
  end.

(** [Path(s)]: empty components and ["."] components are dropped. *)
Definition of_str (s : string) : t :=
  {| root := root_of s;
     parts := filter (λ x, x ≠ EmptyString ∧ x ≠ ".") (split_slash s) |}.

(** [self / key] for a string [key]: a [key] with a root replaces [self]. *)
Definition truediv (self : t) (key : string) : t :=
  let other := of_str key in
  if decide (root other = EmptyString) then
    {| root := root self; parts := parts self ++ parts other |}
  else other.

(** [str(self)] *)
Definition to_str (self : t) : string :=
  match parts self with
  | [] => if decide (root self = EmptyString) then "." else root self
  | x :: xs => root self +:+ foldl (λ acc y, acc +:+ "/" +:+ y) x xs
  end.

End Path.

(** ** The JSON-lines event store ([event_store.py], [models.py]) *)

Module V1.

Inductive EventType : Type :=
  | START | PROGRESS | ARTIFACT | ERROR | DONE | MERGE_READY.

Global Instance EventType_eq_dec : EqDecision EventType.
Proof. solve_decision. Defined.

(** [EventType.X.value] *)
Definition value (e : EventType) : string :=
  match e with
  | START => "start"
  | PROGRESS => "progress"
  | ARTIFACT => "artifact"
  | ERROR => "error"
  | DONE => "done"
  | MERGE_READY => "merge_ready"
  end.

Record Event : Type := {
  t : EventType;
  ts : string;
  w : option string;
  task : option string;
  msg : option string;
  path : option string;
  pct : option Z;
}.

(** Python truthiness of an [Optional[str]]: [None] and the empty string are
    false. [nonempty o] is the string when [o] is truthy. *)
Definition nonempty (o : option string) : option string :=
  match o with
  | Some s => if decide (s = EmptyString) then None else Some s
  | None => None
  end.

(** [str.lower()] on the ASCII letters. *)
Definition lower_ascii (c : Ascii.ascii) : Ascii.ascii :=
  let n := Ascii.nat_of_ascii c in
  if ((65 <=? n) && (n <=? 90))%nat then Ascii.ascii_of_nat (n + 32) else c.

Fixpoint lower (s : string) : string :=
  match s with
  | EmptyString => EmptyString
  | String c s' => String (lower_ascii c) (lower s')
  end.

(** [needle in hay] *)
Fixpoint contains (needle hay : string) : bool :=
  String.prefix needle hay
  || match hay with
     | EmptyString => false
     | String _ hay' => contains needle hay'
     end.

(** The dictionary [compute_status] keeps per worker. *)
Record worker_status : Type := {
  ws_id : string;
  ws_state : string;
  ws_percent : Z;
  ws_last_msg : string;
  ws_task : option string;
}.

(** The local variables of [compute_status]. [workers_map] is a dictionary in
    insertion order: a list of keys with their values, each key once. *)
Record status_vars : Type := {
  workers_map : list (string * worker_status);
  tasks_done : gset string;
  tasks_pending : gset string;
}.

(** [workers_map.get(k)] *)
Fixpoint lookup_worker (k : string) (m : list (string * worker_status))
    : option worker_status :=
  match m with
  | [] => None
  | (k', x) :: m' => if decide (k' = k) then Some x else lookup_worker k m'
  end.

Definition alter_worker (f : worker_status → worker_status) (k : string)
    (m : list (string * worker_status)) : list (string * worker_status) :=
  (λ kv, if decide (fst kv = k) then (fst kv, f (snd kv)) else kv) <$> m.

(** [if event.w not in workers_map: workers_map[event.w] = {...}] *)
Definition ensure_worker (k : string) (tk : option string)
    (m : list (string * worker_status)) : list (string * worker_status) :=
  match lookup_worker k m with
  | Some _ => m
  | None =>
      m ++ [(k, {| ws_id := k; ws_state := "init"; ws_percent := 0;
                   ws_last_msg := EmptyString; ws_task := tk |})]
  end.

Definition set_state (s : string) (x : worker_status) : worker_status :=
  {| ws_id := ws_id x; ws_state := s; ws_percent := ws_percent x;
     ws_last_msg := ws_last_msg x; ws_task := ws_task x |}.

Definition set_percent (p : Z) (x : worker_status) : worker_status :=
  {| ws_id := ws_id x; ws_state := ws_state x; ws_percent := p;
     ws_last_msg := ws_last_msg x; ws_task := ws_task x |}.

Definition set_last_msg (m : string) (x : worker_status) : worker_status :=
  {| ws_id := ws_id x; ws_state := ws_state x; ws_percent := ws_percent x;
     ws_last_msg := m; ws_task := ws_task x |}.

(** What one event does to the worker dictionary of its worker: the branches
    of [if event.t == ...] in [compute_status]. *)
Definition apply_to_worker (event : Event) (x : worker_status) : worker_status :=
  match t event with
  | START => set_percent 0 (set_state "running" x)
  | PROGRESS =>
      let x1 := match pct event with Some p => set_percent p x | None => x end in
      let x2 := match nonempty (msg event) with
                | Some m => set_last_msg m x1
                | None => x1
                end in
      if contains "waiting" (lower (default EmptyString (nonempty (msg event))))
      then set_state "waiting" x2 else x2
  | ERROR =>
      let x1 := set_state "error" x in
      match nonempty (msg event) with
      | Some m => set_last_msg m x1
      | None => x1
      end
  | DONE => set_percent 100 (set_state "done" x)
  | ARTIFACT | MERGE_READY => x
  end.

(** The body of [for event in events] in [compute_status]. *)
Definition apply_event (v : status_vars) (event : Event) : status_vars :=
  match nonempty (w event) with
  | None => v
  | Some k =>
      let m := alter_worker (apply_to_worker event) k
                 (ensure_worker k (task event) (workers_map v)) in
      match t event, nonempty (task event) with
      | START, Some tk =>
          {| workers_map := m; tasks_done := tasks_done v;
             tasks_pending := tasks_pending v ∪ {[tk]} |}
      | DONE, Some tk =>
          {| workers_map := m; tasks_done := tasks_done v ∪ {[tk]};
             tasks_pending := tasks_pending v ∖ {[tk]} |}
      | _, _ =>
          {| workers_map := m; tasks_done := tasks_done v;
             tasks_pending := tasks_pending v |}
      end
  end.

Record Status : Type := {
  st_run_id : string;
  st_workers : list worker_status;
  st_blocked_on : list string;
  st_merge_ready : bool;
}.

(** [compute_status], given the events [read_events()] returns and the name of
    the run directory. *)
Definition compute_status (run_id : string) (events : list Event) : Status :=
  let v := foldl apply_event
             {| workers_map := []; tasks_done := ∅; tasks_pending := ∅ |} events in
  {| st_run_id := run_id;
     st_workers := snd <$> workers_map v;
     st_blocked_on := elements (tasks_pending v ∖ tasks_done v);
     st_merge_ready :=
       bool_decide (size (tasks_pending v) = 0%nat ∧ (0 < size (tasks_done v))%nat) |}.

(** The first dictionary of a status whose [id] is [k]. *)
Fixpoint find_status (k : string) (l : list worker_status) : option worker_status :=
  match l with
  | [] => None
  | x :: l' => if decide (ws_id x = k) then Some x else find_status k l'
  end.

(** The state [compute_status] reports for a worker, if it reports the worker. *)
Definition state_of (run_id : string) (events : list Event) (k : string)
    : option string :=
  ws_state <$> find_status k (st_workers (compute_status run_id events)).

(** The terminal states the projection assigns. *)
Definition terminal (s : string) : Prop := s = "done" ∨ s = "error".

(** The events [compute_status] answers by leaving a terminal state: a start,
    and a progress report whose message mentions waiting. *)
Definition reverting (event : Event) : Prop :=
  t event = START
  ∨ (t event = PROGRESS
     ∧ contains "waiting" (lower (default EmptyString (nonempty (msg event)))) = true).

(** [get_ready_artifacts], given the events [read_events()] returns. *)
Definition get_ready_artifacts (events : list Event) : list string :=
  let done_workers : gset string :=
    list_to_set (omap (λ event, if decide (t event = DONE) then nonempty (w event)
                                else None) events) in
  omap (λ event,
          if bool_decide (t event = ARTIFACT)
             && match w event with
                | Some k => bool_decide (k ∈ done_workers)
                | None => false
                end
          then nonempty (path event) else None) events.

(** [get_worker_artifacts], given the events [read_events()] returns. *)
Definition get_worker_artifacts (events : list Event) (worker_id : string)
    : list string :=
  omap (λ event,
          if bool_decide (w event = Some worker_id) && bool_decide (t event = ARTIFACT)
          then nonempty (path event) else None) events.

(** [is_all_workers_done]: [all(w['state'] == 'done' for w in status.workers)]. *)
Definition is_all_workers_done (run_id : string) (events : list Event) : bool :=
  forallb (λ x, bool_decide (ws_state x = "done"))
    (st_workers (compute_status run_id events)).

(** An event that names a worker and says [kind] about the task [tk]. *)
Definition reports (kind : EventType) (tk : string) (event : Event) : Prop :=
  t event = kind ∧ is_Some (nonempty (w event)) ∧ nonempty (task event) = Some tk.

Definition initial_status (k : string) (tk : option string) : worker_status :=
  {| ws_id := k; ws_state := "init"; ws_percent := 0;
     ws_last_msg := EmptyString; ws_task := tk |}.

Definition keyed (m : list (string * worker_status)) : Prop :=
  Forall (λ kv, ws_id (snd kv) = fst kv) m.

Definition initial_vars : status_vars :=
  {| workers_map := []; tasks_done := ∅; tasks_pending := ∅ |}.

(** The state an event assigns to its worker, if it assigns one: the
    assignments to [worker['state']] in [compute_status]. *)
Definition state_set_by (event : Event) : option string :=
  match t event with
  | START => Some "running"
  | PROGRESS =>
      if contains "waiting" (lower (default EmptyString (nonempty (msg event))))
      then Some "waiting" else None
  | ERROR => Some "error"
  | DONE => Some "done"
  | ARTIFACT | MERGE_READY => None
  end.

End V1.

(** ** The worker ([worker.py])

    [worker.py] takes [EventType] from [models.py] and hands the store the
    value of a member, a [str]. *)

Module Worker.

Record t : Type := {
  run_id : string;
  worker_id : string;
  task_id : string;
}.

(** [Worker.__init__]: the attributes are set, then [create_worker] is called
    on the store. *)
Definition init (run worker task : string) : M conn t :=
  create_worker worker run task;;
  ret {| run_id := run; worker_id := worker; task_id := task |}.

(** [send_heartbeat]: [models.EventType] has no member [HEARTBEAT], so
    evaluating the arguments of the first call raises [AttributeError] and
    neither call is made. *)
Definition send_heartbeat (self : t) : M conn unit :=
  raise (AttributeError "type object 'EventType' has no attribute 'HEARTBEAT'").

Definition update_progress (self : t) (percent : Z) (message : string) : M conn unit :=
  append_event_by_value (V1.value V1.PROGRESS) (run_id self) (Some (worker_id self))
    (Some (task_id self)) (Some (PProgress percent message));;
  update_worker_status_by_value (worker_id self) "busy" (Some percent) (Some message).

Definition report_artifact (self : t) (path : string) : M conn unit :=
  append_event_by_value (V1.value V1.ARTIFACT) (run_id self) (Some (worker_id self))
    (Some (task_id self)) (Some (PArtifact path));;
  ret tt.

Definition report_error (self : t) (error : string) : M conn unit :=
  append_event_by_value (V1.value V1.ERROR) (run_id self) (Some (worker_id self))
    (Some (task_id self)) (Some (PError error));;
  update_worker_status_by_value (worker_id self) "error" (Some 0) (Some error).

Definition report_done (self : t) : M conn unit :=
  append_event_by_value (V1.value V1.DONE) (run_id self) (Some (worker_id self))
    (Some (task_id self)) (Some (PDone true));;
  update_worker_status_by_value (worker_id self) "done" (Some 100)
    (Some "Completed successfully").

Definition exit_code_message (code : Z) : string :=
  "Command exited with code " +:+ pretty code.

Definition timeout_message (timeout : Z) : string :=
  "Command timed out after " +:+ pretty timeout +:+ "s".

Definition exception_message (e : exn) : string :=
  "Exception: " +:+ str e.

(** [execute_command]; [env] is what [subprocess.run] does. The start event
    and the first progress report come before the [try]. The files
    [output.txt] and [error.txt] are written between the progress report and
    the artifact report; the file system is not part of the model. *)
Definition execute_command (self : t) (command : string) (working_dir : Path.t)
    (timeout : Z) (env : run_outcome) : M conn bool :=
  append_event_by_value (V1.value V1.START) (run_id self) (Some (worker_id self))
    (Some (task_id self)) (Some (PStart command None));;
  update_progress self 0 "Starting...";;
  try_except
    (update_progress self 10 "Executing command...";;
     result ← subprocess_run env;
     update_progress self 90 "Command completed, processing output...";;
     let output_file := Path.truediv working_dir "output.txt" in
     report_artifact self (Path.to_str output_file);;
     if decide (returncode result = 0) then
       report_done self;; ret true
     else
       report_error self (exit_code_message (returncode result));; ret false)
    (λ e,
       match e with
       | TimeoutExpired _ => report_error self (timeout_message timeout);; ret false
       | _ => report_error self (exception_message e);; ret false
       end).

(** [main], from the construction of the worker on, with the command line
    already read; the value is [success], which decides the exit status. *)
Definition main (run worker task command : string) (working_dir : Path.t)
    (env : run_outcome) : M conn bool :=
  self ← init run worker task;
  execute_command self command working_dir 300 env.

End Worker.

(** ** The orchestrator ([orchestrator.py]) *)

Module Orchestrator.

(** The result dictionary of [_execute_task]. *)
Record task_result : Type := {
  r_task : string;
  r_worker : string;
  r_success : bool;
  r_output : option string;
  r_error : option string;
}.

(** The lines [execute] prints that carry numbers (the banner lines are left
    out): a batch of the plan, the tally of a batch, and the summary. *)
Inductive line : Type :=
  | PlanBatch (index n_tasks : nat)
  | BatchTally (success_count n_results : nat)
  | Summary (total successful failed : nat).

(** The immutable attributes of the orchestrator. *)
Record t : Type := {
  tasks_file_name : string;
  run_id : string;
  run_dir : Path.t;
  task_defs : list TaskDefinition;
}.

(** What [execute] changes: the store, [self.batches], and standard output. *)
Record state : Type := {
  store : conn;
  batches : list (list TaskDefinition);
  console : list line;
}.

Definition init_state (c : conn) : state :=
  {| store := c; batches := []; console := [] |}.

Definition with_store (c : conn) (s : state) : state :=
  {| store := c; batches := batches s; console := console s |}.

(** [self.store.op(...)] *)
Definition in_store {A} (op : M conn A) : M state A := λ s,
  let '(r, c) := op (store s) in
  (r, with_store c s).

Definition get_batches : M state (list (list TaskDefinition)) := λ s,
  (Ok (batches s), s).

Definition set_batches (bs : list (list TaskDefinition)) : M state unit := λ s,
  (Ok tt, {| store := store s; batches := bs; console := console s |}).

Definition print (l : line) : M state unit := λ s,
  (Ok tt, {| store := store s; batches := batches s; console := console s ++ [l] |}).

(** Lifts a pure step that may raise. *)
Definition of_result {S A} (r : result A) : M S A :=
  match r with
  | Ok a => ret a
  | Raise e => raise e
  end.

(** [prompt or command] *)
Definition description_of (task_def : TaskDefinition) : string :=
  if decide (prompt task_def = EmptyString) then command task_def
  else prompt task_def.

(** [Task(id=..., description=..., dependencies=..., inputs={}, outputs={},
    worker_hint=None)]: the dataclass [models.Task] names its third field
    [deps] and has no field [dependencies], so the constructor raises
    [TypeError]. *)
Definition new_Task {S} (id description : string) (dependencies : list string)
    : M S plan_task :=
  raise (unexpected_keyword "Task.__init__" "dependencies").

(** [_create_plan]: a [Task] is built for every task of every batch, then the
    plan is handed to the store. [Plan(...)] only builds a value. *)
Definition _create_plan (self : t) : M state unit :=
  bs ← get_batches;
  tasks ← for_each (concat bs) (λ task_def,
             new_Task (name task_def) (description_of task_def)
               (dependencies task_def));
  let plan_prompt :=
    "Executing " +:+ pretty (length tasks) +:+ " tasks from "
      +:+ tasks_file_name self in
  in_store (create_plan (run_id self) plan_prompt tasks).

Definition worker_id_of (task_def : TaskDefinition) : string :=
  "W-" +:+ name task_def.

Definition _spawn_worker (self : t) (task_def : TaskDefinition) : M state string :=
  let worker_id := worker_id_of task_def in
  in_store (create_worker worker_id (run_id self) (name task_def));;
  in_store (append_event_by_value (V1.value V1.START) (run_id self) (Some worker_id)
              (Some (name task_def))
              (Some (PStart (command task_def) (Some (prompt task_def)))));;
  in_store (update_worker_status_by_value worker_id "busy" (Some 0)
              (Some ("Starting task: " +:+ name task_def)));;
  ret worker_id.

Definition timeout_message (timeout : Z) : string :=
  "Task timed out after " +:+ pretty timeout +:+ "s".

Definition exception_message (e : exn) : string :=
  "Exception: " +:+ str e.

(** The error report that [_execute_task] writes out three times: the error
    event, then the worker status. *)
Definition record_error (self : t) (task_def : TaskDefinition)
    (worker_id error_msg : string) : M state unit :=
  in_store (append_event_by_value (V1.value V1.ERROR) (run_id self) (Some worker_id)
              (Some (name task_def)) (Some (PError error_msg)));;
  in_store (update_worker_status_by_value worker_id "error" (Some 0) (Some error_msg)).

(** [_execute_task]; [env] is what launching the command and waiting for it
    (with the task's timeout) does. The inner handler is
    [except asyncio.TimeoutError], the outer one [except Exception]. *)
Definition _execute_task (self : t) (env : run_outcome)
    (task_def : TaskDefinition) (worker_id : string) : M state task_result :=
  try_except
    (let worker_dir := Path.truediv (Path.truediv (run_dir self) "workers") worker_id in
     try_except
       (proc ← subprocess_run env;
        let success := bool_decide (returncode proc = 0) in
        let output_file := Path.truediv worker_dir "output.txt" in
        (if success then
           in_store (append_event_by_value (V1.value V1.ARTIFACT) (run_id self)
                       (Some worker_id) (Some (name task_def))
                       (Some (PArtifact (Path.to_str output_file))));;
           in_store (append_event_by_value (V1.value V1.DONE) (run_id self)
                       (Some worker_id) (Some (name task_def)) (Some (PDone true)));;
           in_store (update_worker_status_by_value worker_id "done" (Some 100)
                       (Some "Completed successfully"))
         else
           let error_msg :=
             if decide (stderr proc = EmptyString) then "Command failed"
             else stderr proc in
           record_error self task_def worker_id error_msg);;
        ret {| r_task := name task_def; r_worker := worker_id;
               r_success := success; r_output := Some (stdout proc);
               r_error := if decide (stderr proc = EmptyString) then None
                          else Some (stderr proc) |})
       (λ e,
          match e with
          | TimeoutExpired _ =>
              let error_msg := timeout_message (timeout task_def) in
              record_error self task_def worker_id error_msg;;
              ret {| r_task := name task_def; r_worker := worker_id;
                     r_success := false; r_output := None;
                     r_error := Some error_msg |}
          | _ => raise e
          end))
    (λ e,
       let error_msg := exception_message e in
       record_error self task_def worker_id error_msg;;
       ret {| r_task := name task_def; r_worker := worker_id;
              r_success := false; r_output := None; r_error := Some error_msg |}).

(** [_execute_batch]: the workers are spawned in order, then the tasks run
    under [asyncio.gather]. [env] gives each task's subprocess outcome by task
    name. The coroutines are run one after the other, in the order of the
    batch, which is the order of the results [gather] returns. *)
Definition _execute_batch (self : t) (env : string → run_outcome)
    (batch : list TaskDefinition) : M state (list task_result) :=
  workers ← for_each batch (λ task_def,
               worker_id ← _spawn_worker self task_def;
               ret (task_def, worker_id));
  for_each workers (λ '(task_def, worker_id),
    _execute_task self (env (name task_def)) task_def worker_id).

(** [sum(1 for r in results if r['success'])] *)
Definition success_count (results : list task_result) : nat :=
  length (filter (λ r, r_success r = true) results).

(** The loop [for batch_idx, batch in enumerate(self.batches, 1)] of
    [execute], threading [all_results]. *)
Fixpoint run_batches (self : t) (env : string → run_outcome)
    (bs : list (list TaskDefinition)) (all_results : list task_result)
    : M state (list task_result) :=
  match bs with
  | [] => ret all_results
  | batch :: bs' =>
      results ← _execute_batch self env batch;
      print (BatchTally (success_count results) (length results));;
      run_batches self env bs' (all_results ++ results)
  end.

(** The plan lines [execute] prints. *)
Definition plan_lines (bs : list (list TaskDefinition)) : list line :=
  imap (λ i batch, PlanBatch (S i) (length batch)) bs.

(** [execute]. Running out of fuel in the resolver is turned into an exception
    here; [resolve_total] shows it does not happen. *)
Definition execute (self : t) (env : string → run_outcome) : M state (list task_result) :=
  of_result (_validate_dependencies (task_defs self));;
  bs ← match _resolve_dependencies (task_defs self) with
       | Some r => of_result r
       | None => raise (OtherException "resolver: out of fuel")
       end;
  set_batches bs;;
  for_each (plan_lines bs) print;;
  _create_plan self;;
  all_results ← run_batches self env bs [];
  let total_success := success_count all_results in
  print (Summary (length all_results) total_success
           (length all_results - total_success));;
  ret all_results.

(** A step that wrote nothing: the database, [self.batches] and the console
    are as they were. *)
Definition unchanged (s s' : state) : Prop :=
  data (store s') = data (store s) ∧ batches s' = batches s ∧ console s' = console s.

End Orchestrator.

(** ** Concrete stores and runs *)

(** Three accepted calls with [max_retries = 3], one second apart. *)
Definition three_blocks : conn :=
  let call (now : Z) (c : conn) : conn :=
    snd (create_block "W-a" "Stop" "workers running" 5 3 (set_clock now c)) in
  set_clock 3 (call 2 (call 1 (call 0 (open_conn empty_db 0)))).

(** A store in which task [t1] is completed while its worker ended in error,
    after reporting an artifact. *)
Definition failed_worker_db : db :=
  {| events :=
       [{| ev_id := 1; ev_timestamp := 0; ev_run_id := "R1";
           ev_worker_id := Some "W-t1"; ev_event_type := EventType.ARTIFACT;
           ev_task_id := Some "t1";
           ev_payload := Some (PArtifact "workers/W-t1/output.txt") |}];
     events_seq := 1;
     workers :=
       {[ "W-t1" := {| w_run_id := "R1"; w_task_id := Some "t1";
                       w_state := WorkerState.ERROR; w_pid := None;
                       w_started_at := Some 0; w_last_heartbeat := Some 0;
                       w_progress := 0;
                       w_last_message := Some "Command exited with code 1" |} ]};
     tasks :=
       {[ "t1" := {| t_run_id := "R1"; t_description := "build";
                     t_dependencies := []; t_state := "completed";
                     t_assigned_worker := Some "W-t1" |} ]};
     blocks := []; blocks_seq := 0; plans := ∅ |}.

(** Worker [W-a] of run [R1], with the attributes [__init__] sets before it
    calls the store. *)
Definition done_worker : Worker.t :=
  {| Worker.run_id := "R1"; Worker.worker_id := "W-a"; Worker.task_id := "a" |}.

(** A store whose only worker has been recorded as done. *)
Definition after_report_done : conn :=
  snd (update_worker_status "W-a" "R1" (Some WorkerState.DONE) (Some 100) (Some "a")
         (Some "Completed successfully") (open_conn empty_db 0)).

Definition done_event : V1.Event :=
  {| V1.t := V1.DONE; V1.ts := "2025-01-01T00:00:00"; V1.w := Some "W-a";
     V1.task := Some "a"; V1.msg := None; V1.path := None; V1.pct := None |}.

Definition start_event : V1.Event :=
  {| V1.t := V1.START; V1.ts := "2025-01-01T00:00:01"; V1.w := Some "W-a";
     V1.task := Some "a"; V1.msg := None; V1.path := None; V1.pct := None |}.

(** Two batches of two tasks; [lint], in the first batch, fails. *)
Definition two_batches : Orchestrator.t :=
  {| Orchestrator.tasks_file_name := "tasks.yaml";
     Orchestrator.run_id := "R1";
     Orchestrator.run_dir := Path.of_str "/home/user/project/.claude/runs/R1";
     Orchestrator.task_defs :=
       [mk_task "build" []; mk_task "lint" [];
        mk_task "test" ["build"]; mk_task "docs" ["lint"]] |}.

Definition lint_fails (task : string) : run_outcome :=
  if decide (task = "lint") then
    Completes {| returncode := 1; stdout := EmptyString; stderr := "lint: 3 errors" |}
  else
    Completes {| returncode := 0; stdout := "ok"; stderr := EmptyString |}.

Definition fresh_state : Orchestrator.state :=
  Orchestrator.init_state (open_conn empty_db 0).

Definition exit_zero : run_outcome :=
  Completes {| returncode := 0; stdout := "ok"; stderr := EmptyString |}.

Definition exit_one : run_outcome :=
  Completes {| returncode := 1; stdout := EmptyString; stderr := "failed" |}.

(** The upsert of a new worker when COMMIT fails: the insert is undone. *)
Definition commit_fails : conn :=
  set_faults [false; false; false; true] (open_conn empty_db 0).

(** Two events of run [R1], appended one second apart. *)
Definition two_events : conn :=
  let c1 := snd (append_event EventType.START "R1" (Some "W-a") (Some "a")
                   (Some (PStart "true" None)) (open_conn empty_db 0)) in
  let c2 := snd (append_event EventType.DONE "R1" (Some "W-a") (Some "a")
                   (Some (PDone true)) (set_clock 1 c1)) in
  set_clock 2 c2.

(** The artifact report of worker [W-a] in the JSON-lines log. *)
Definition artifact_report : V1.Event :=
  {| V1.t := V1.ARTIFACT; V1.ts := "2025-01-01T00:00:00"; V1.w := Some "W-a";
     V1.task := Some "a"; V1.msg := None; V1.path := Some "out/a.txt";
     V1.pct := None |}.

(** * Properties *)

Example resolve_abc :
  _resolve_dependencies [mk_task "A" []; mk_task "B" ["A"]; mk_task "C" ["A"]]
  = Some (Ok [[mk_task "A" []]; [mk_task "B" ["A"]; mk_task "C" ["A"]]]).
Proof. vm_compute. reflexivity. Qed.

Example resolve_xy_cycle :
  _resolve_dependencies [mk_task "X" ["Y"]; mk_task "Y" ["X"]]
  = Some (Raise (ValueError circular_dependency_message)).
Proof. vm_compute. reflexivity. Qed.

Lemma size_list_to_set_le (l : list string) :
  (size (list_to_set l : gset string) ≤ length l)%nat.
Proof.
  induction l as [|x l IH]; cbn [list_to_set length].
  - rewrite size_empty. lia.
  - destruct (decide (x ∈ l)) as [Hin|Hnin].
    + assert (({[x]} ∪ list_to_set l : gset string) = list_to_set l) as -> by set_solver.
      lia.
    + rewrite size_union by set_solver. rewrite size_singleton. lia.
Qed.

Lemma size_list_to_set_lt (l : list string) :
  ¬ NoDup l → (size (list_to_set l : gset string) < length l)%nat.
Proof.
  induction l as [|x l IH]; cbn [list_to_set length]; intros Hdup.
  - destruct Hdup. constructor.
  - destruct (decide (x ∈ l)) as [Hin|Hnin].
    + assert (({[x]} ∪ list_to_set l : gset string) = list_to_set l) as -> by set_solver.
      pose proof (size_list_to_set_le l). lia.
    + rewrite size_union by set_solver. rewrite size_singleton.
      assert (¬ NoDup l) as Hl by (intros Hl; apply Hdup; by constructor).
      specialize (IH Hl). lia.
Qed.

Lemma names_of_app (b1 b2 : list TaskDefinition) :
  names_of (b1 ++ b2) = names_of b1 ∪ names_of b2.
Proof. unfold names_of. rewrite fmap_app. apply list_to_set_app_L. Qed.

Lemma elem_of_names_of (x : string) (b : list TaskDefinition) :
  x ∈ names_of b ↔ ∃ task, task ∈ b ∧ name task = x.
Proof.
  unfold names_of. rewrite elem_of_list_to_set, list_elem_of_fmap.
  split; intros (task & ? & ?); eauto.
Qed.

Lemma elem_of_ready_tasks (task : TaskDefinition) task_defs completed :
  task ∈ ready_tasks task_defs completed ↔ is_ready completed task ∧ task ∈ task_defs.
Proof. unfold ready_tasks. apply list_elem_of_filter. Qed.

Lemma ready_tasks_sublist task_defs completed :
  sublist (ready_tasks task_defs completed) task_defs.
Proof. unfold ready_tasks. apply sublist_filter. Qed.

Lemma ready_tasks_grow task_defs completed :
  ready_tasks task_defs completed ≠ [] →
  (size completed < size (completed ∪ names_of (ready_tasks task_defs completed)))%nat.
Proof.
  intros Hne. apply subset_size.
  destruct (ready_tasks task_defs completed) as [|task r] eqn:Hr; [done|].
  assert (task ∈ ready_tasks task_defs completed) as Hin by (rewrite Hr; left).
  apply elem_of_ready_tasks in Hin as [[Hfresh _] _].
  assert (name task ∈ names_of (task :: r)) by (apply elem_of_names_of; exists task; split; [left|done]).
  set_solver.
Qed.

Lemma names_of_concat_cons (b : list TaskDefinition) bs :
  names_of (concat (b :: bs)) = names_of b ∪ names_of (concat bs).
Proof. cbn [concat]. apply names_of_app. Qed.

(** The loop returns only what its rounds built, and only once the loop
    condition fails. *)
Lemma resolve_loop_ok fuel task_defs completed acc bs :
  resolve_loop fuel task_defs completed acc = Some (Ok bs) →
  ∃ rest, bs = acc ++ rest ∧ rounds task_defs completed rest
          ∧ (length task_defs ≤ size (completed ∪ names_of (concat rest)))%nat.
Proof.
  revert completed acc. induction fuel as [|fuel IH]; intros completed acc; [done|].
  cbn [resolve_loop]. case_decide as Hlt.
  - destruct (ready_tasks task_defs completed) as [|task r] eqn:Hr; [done|].
    intros Hloop. apply IH in Hloop as (rest & -> & Hrounds & Hsize).
    exists ((task :: r) :: rest). split; [by rewrite <- app_assoc|]. split.
    + cbn [rounds]. rewrite Hr. done.
    + rewrite names_of_concat_cons. by rewrite (assoc_L (∪)).
  - intros [= <-]. exists []. split; [by rewrite app_nil_r|]. split; [done|].
    cbn [concat]. unfold names_of. cbn. rewrite (right_id_L ∅ (∪)). lia.
Qed.

(** The loop raises only the circular-dependency error. *)
Lemma resolve_loop_raise fuel task_defs completed acc e :
  resolve_loop fuel task_defs completed acc = Some (Raise e) →
  e = ValueError circular_dependency_message.
Proof.
  revert completed acc. induction fuel as [|fuel IH]; intros completed acc; [done|].
  cbn [resolve_loop]. case_decide; [|done].
  destruct (ready_tasks task_defs completed) as [|task r] eqn:Hr.
  - by intros [= <-].
  - apply IH.
Qed.

(** Each round that does not raise adds a name to [completed], so the loop
    ends within [length task_defs - size completed + 1] iterations. *)
Lemma resolve_loop_total fuel task_defs completed acc :
  (length task_defs - size completed < fuel)%nat →
  is_Some (resolve_loop fuel task_defs completed acc).
Proof.
  revert completed acc. induction fuel as [|fuel IH]; intros completed acc Hfuel; [lia|].
  cbn [resolve_loop]. case_decide as Hlt; [|by eexists].
  pose proof (ready_tasks_grow task_defs completed) as Hgrow.
  destruct (ready_tasks task_defs completed) as [|task r] eqn:Hr; [by eexists|].
  apply IH. specialize (Hgrow ltac:(done)). lia.
Qed.

Lemma resolve_total task_defs : is_Some (_resolve_dependencies task_defs).
Proof. apply resolve_loop_total. lia. Qed.

(** If every round finds a ready task, the loop returns batches. *)
Lemma resolve_loop_progress fuel task_defs completed acc :
  (∀ c, (size c < length task_defs)%nat → ready_tasks task_defs c ≠ []) →
  (length task_defs - size completed < fuel)%nat →
  ∃ bs, resolve_loop fuel task_defs completed acc = Some (Ok bs).
Proof.
  intros Hprog Hfuel.
  destruct (resolve_loop_total fuel task_defs completed acc Hfuel) as [[bs|e] Hres];
    [by eexists|].
  exfalso. revert completed acc Hfuel Hres.
  induction fuel as [|fuel IH]; intros completed acc Hfuel; [done|].
  cbn [resolve_loop]. case_decide as Hlt; [|done].
  pose proof (ready_tasks_grow task_defs completed) as Hgrow.
  destruct (ready_tasks task_defs completed) as [|task r] eqn:Hr.
  - intros _. by apply (Hprog completed).
  - apply IH. specialize (Hgrow ltac:(done)). lia.
Qed.

(** *** What the rounds guarantee *)

(** The names completed before round [i]. *)
Lemma rounds_lookup task_defs completed bs i b :
  rounds task_defs completed bs → bs !! i = Some b →
  b = ready_tasks task_defs (completed ∪ names_of (concat (take i bs))).
Proof.
  revert completed i. induction bs as [|b0 bs IH]; intros completed i Hr Hi; [done|].
  destruct Hr as (Hb0 & _ & _ & Hr). destruct i as [|i].
  - injection Hi as <-. cbn [take concat]. unfold names_of at 1. cbn.
    by rewrite (right_id_L ∅ (∪)).
  - cbn [take]. rewrite names_of_concat_cons, (assoc_L (∪)). by apply IH.
Qed.

Lemma elem_of_concat {A} (x : A) (ls : list (list A)) :
  x ∈ concat ls ↔ ∃ l, x ∈ l ∧ l ∈ ls.
Proof.
  induction ls as [|l ls IH]; cbn [concat].
  - split; [by intros ?%elem_of_nil|]. by intros (? & _ & ?%elem_of_nil).
  - rewrite elem_of_app, IH. split.
    + intros [Hx|(l' & Hx & Hl')]; [exists l; split; [done|left]|].
      exists l'. split; [done|by right].
    + intros (l' & Hx & Hl'). apply elem_of_cons in Hl' as [->|Hl']; eauto.
Qed.

Lemma elem_of_concat_take {A} (x : A) (bs : list (list A)) (i : nat) :
  x ∈ concat (take i bs) ↔ ∃ j b, (j < i)%nat ∧ bs !! j = Some b ∧ x ∈ b.
Proof.
  rewrite elem_of_concat. split.
  - intros (b & Hx & Hb). apply list_elem_of_lookup in Hb as [j Hj].
    apply lookup_take_Some in Hj as [Hj Hlt]. eauto.
  - intros (j & b & Hlt & Hj & Hx). exists b. split; [done|].
    apply list_elem_of_lookup. exists j. by apply lookup_take_Some.
Qed.

Lemma rounds_ready task_defs bs i b task :
  rounds task_defs ∅ bs → bs !! i = Some b → task ∈ b →
  task ∈ task_defs ∧ is_ready (names_of (concat (take i bs))) task.
Proof.
  intros Hr Hi Hin. rewrite (rounds_lookup _ _ _ _ _ Hr Hi) in Hin.
  rewrite (left_id_L ∅ (∪)) in Hin. apply elem_of_ready_tasks in Hin. tauto.
Qed.

(** A task's dependencies lie in earlier batches. *)
Lemma rounds_dependencies_before task_defs bs i b task dep :
  rounds task_defs ∅ bs → bs !! i = Some b → task ∈ b → dep ∈ dependencies task →
  ∃ j b' task', (j < i)%nat ∧ bs !! j = Some b' ∧ task' ∈ b' ∧ name task' = dep.
Proof.
  intros Hr Hi Hin Hdep.
  destruct (rounds_ready _ _ _ _ _ Hr Hi Hin) as [_ [_ Hall]].
  rewrite Forall_forall in Hall. specialize (Hall dep Hdep).
  apply elem_of_names_of in Hall as (task' & Hin' & Hname).
  apply elem_of_concat_take in Hin' as (j & b' & ? & ? & ?). eauto 10.
Qed.

(** No name is placed twice. *)
Lemma rounds_names_once task_defs bs i j b b' task task' :
  rounds task_defs ∅ bs → bs !! i = Some b → bs !! j = Some b' →
  task ∈ b → task' ∈ b' → name task = name task' → i = j.
Proof.
  intros Hr Hi Hj Hin Hin' Hname.
  destruct (rounds_ready _ _ _ _ _ Hr Hi Hin) as [_ [Hfresh _]].
  destruct (rounds_ready _ _ _ _ _ Hr Hj Hin') as [_ [Hfresh' _]].
  destruct (Nat.lt_trichotomy i j) as [Hlt|[Heq|Hlt]]; [|done|]; exfalso.
  - apply Hfresh'. apply elem_of_names_of. exists task. split; [|done].
    apply elem_of_concat_take. eauto.
  - apply Hfresh. apply elem_of_names_of. exists task'. split; [|done].
    apply elem_of_concat_take. eauto.
Qed.

(** A task is not ready in any round before its own. *)
Lemma rounds_earliest task_defs bs i j b task :
  rounds task_defs ∅ bs → bs !! i = Some b → task ∈ b → (j < i)%nat →
  ∃ dep, dep ∈ dependencies task ∧ dep ∉ names_of (concat (take j bs)).
Proof.
  intros Hr Hi Hin Hlt.
  destruct (rounds_ready _ _ _ _ _ Hr Hi Hin) as [Htask [Hfresh _]].
  destruct (lookup_lt_is_Some_2 bs j) as [b' Hj].
  { apply lookup_lt_Some in Hi. lia. }
  assert (task ∉ b') as Hnotin.
  { intros Hin'. pose proof (rounds_names_once _ _ _ _ _ _ _ _ Hr Hi Hj Hin Hin' eq_refl). lia. }
  rewrite (rounds_lookup _ _ _ _ _ Hr Hj), (left_id_L ∅ (∪)), elem_of_ready_tasks in Hnotin.
  assert (¬ Forall (λ dep, dep ∈ names_of (concat (take j bs))) (dependencies task)) as Hnall.
  { intros Hall. apply Hnotin. split; [|done]. split; [|done].
    intros Hplaced. apply Hfresh. apply elem_of_names_of in Hplaced as (t' & Ht' & Hn).
    apply elem_of_names_of. exists t'. split; [|done].
    apply elem_of_concat_take in Ht' as (k & bk & ? & ? & ?).
    apply elem_of_concat_take. exists k, bk. split; [lia|done]. }
  apply not_Forall_Exists in Hnall; [|apply _].
  apply Exists_exists in Hnall as (dep & ? & ?). eauto.
Qed.

(** The names placed by the rounds are distinct and new. *)
Lemma rounds_names_NoDup task_defs completed bs :
  distinct_names task_defs → rounds task_defs completed bs →
  NoDup (name <$> concat bs) ∧ ∀ x, x ∈ names_of (concat bs) → x ∉ completed.
Proof.
  intros Hdist. revert completed. induction bs as [|b bs IH]; intros completed Hr.
  - split; [constructor|]. intros x Hx. apply elem_of_names_of in Hx as (? & Hx & _).
    by apply elem_of_nil in Hx.
  - destruct Hr as (Hb & _ & _ & Hr). destruct (IH _ Hr) as [Hnd Hnew].
    cbn [concat]. rewrite fmap_app. split.
    + apply NoDup_app. split; [|split; [|done]].
      * rewrite Hb. eapply sublist_NoDup; [exact Hdist|apply (fmap_sublist name), ready_tasks_sublist].
      * intros x Hx Hx'. apply (Hnew x); [|set_solver].
        unfold names_of. by apply elem_of_list_to_set.
    + intros x Hx. rewrite names_of_app in Hx. apply elem_of_union in Hx as [Hx|Hx].
      * rewrite Hb in Hx. apply elem_of_names_of in Hx as (task & Hin & <-).
        apply elem_of_ready_tasks in Hin. by destruct Hin as [[? _] _].
      * specialize (Hnew x Hx). set_solver.
Qed.

Lemma rounds_subset task_defs completed bs task :
  rounds task_defs completed bs → task ∈ concat bs → task ∈ task_defs.
Proof.
  revert completed. induction bs as [|b bs IH]; intros completed Hr Hin.
  - by apply elem_of_nil in Hin.
  - destruct Hr as (Hb & _ & _ & Hr). cbn [concat] in Hin.
    apply elem_of_app in Hin as [Hin|Hin]; [|by eapply IH].
    rewrite Hb in Hin. by apply elem_of_ready_tasks in Hin as [_ ?].
Qed.

(** When the loop condition fails, the batches hold every task once. *)
Lemma rounds_permutation task_defs bs :
  distinct_names task_defs → rounds task_defs ∅ bs →
  (length task_defs ≤ size (names_of (concat bs)))%nat →
  concat bs ≡ₚ task_defs.
Proof.
  intros Hdist Hr Hsize. destruct (rounds_names_NoDup _ _ _ Hdist Hr) as [Hnd _].
  apply submseteq_length_Permutation.
  - apply NoDup_submseteq; [by eapply NoDup_fmap_1|].
    intros task. by eapply rounds_subset.
  - pose proof (size_list_to_set_le (name <$> concat bs)) as Hle.
    rewrite length_fmap in Hle. unfold names_of in Hsize. lia.
Qed.

(** *** Acyclic task sets always have a ready task *)

Lemma distinct_names_inj task_defs task task' :
  distinct_names task_defs → task ∈ task_defs → task' ∈ task_defs →
  name task = name task' → task = task'.
Proof.
  unfold distinct_names. induction task_defs as [|t0 l IH]; intros Hnd Hin Hin' Hname.
  - by apply elem_of_nil in Hin.
  - rewrite fmap_cons in Hnd. apply NoDup_cons in Hnd as [Hfresh Hnd].
    apply elem_of_cons in Hin as [->|Hin]; apply elem_of_cons in Hin' as [->|Hin'].
    + done.
    + exfalso. apply Hfresh. rewrite Hname. by apply list_elem_of_fmap_2.
    + exfalso. apply Hfresh. rewrite <- Hname. by apply list_elem_of_fmap_2.
    + by apply IH.
Qed.

Lemma depends_on_reaches_dependency task_defs a b :
  tc (depends_on task_defs) a b → b ∈ concat (dependencies <$> task_defs).
Proof.
  induction 1 as [a b (task & Hin & _ & Hdep)|a c b _ _ IH]; [|done].
  apply elem_of_concat. exists (dependencies task). split; [done|].
  by apply list_elem_of_fmap_2.
Qed.

Lemma depends_on_sn task_defs a :
  acyclic task_defs → sn (depends_on task_defs) a.
Proof.
  intros Hacyc. apply tc_finite_sn; [exact Hacyc|].
  exists (concat (dependencies <$> task_defs)). intros b.
  apply depends_on_reaches_dependency.
Qed.

Lemma unplaced_task task_defs (completed : gset string) :
  distinct_names task_defs → (size completed < length task_defs)%nat →
  ∃ task, task ∈ task_defs ∧ name task ∉ completed.
Proof.
  intros Hdist Hlt.
  destruct (decide (Forall (λ task, name task ∈ completed) task_defs)) as [Hall|Hnall].
  - exfalso. rewrite Forall_forall in Hall.
    assert (names_of task_defs ⊆ completed) as Hsub.
    { intros x (task & Hin & <-)%elem_of_names_of. by apply Hall. }
    apply subseteq_size in Hsub. unfold names_of in Hsub.
    rewrite size_list_to_set in Hsub by exact Hdist. rewrite length_fmap in Hsub. lia.
  - apply not_Forall_Exists in Hnall; [|apply _].
    apply Exists_exists in Hnall as (task & ? & ?). eauto.
Qed.

Lemma acyclic_ready task_defs completed :
  distinct_names task_defs → valid_dependencies task_defs → acyclic task_defs →
  (size completed < length task_defs)%nat →
  ready_tasks task_defs completed ≠ [].
Proof.
  intros Hdist Hvalid Hacyc Hlt.
  destruct (unplaced_task _ _ Hdist Hlt) as (task & Hin & Hfresh).
  pose proof (depends_on_sn task_defs (name task) Hacyc) as Hsn.
  remember (name task) as a eqn:Ha. revert task Hin Hfresh Ha.
  induction Hsn as [a _ IH]. intros task Hin Hfresh ->.
  destruct (decide (Forall (λ dep, dep ∈ completed) (dependencies task))) as [Hall|Hnall].
  - intros Hnil. assert (task ∈ ready_tasks task_defs completed) as Hr.
    { apply elem_of_ready_tasks. by repeat split. }
    rewrite Hnil in Hr. by apply elem_of_nil in Hr.
  - apply not_Forall_Exists in Hnall; [|apply _].
    apply Exists_exists in Hnall as (dep & Hdep & Hdepfresh).
    destruct (Hvalid task dep Hin Hdep) as (task' & Hin' & Hname').
    refine (IH dep _ task' Hin' _ (eq_sym Hname')).
    + by exists task.
    + done.
Qed.

(** *** Names on a cycle are never placed *)

Lemma tc_first_step {A} (R : relation A) x z :
  tc R x z → ∃ y, R x y ∧ rtc R y z.
Proof.
  intros H. destruct H as [x z H|x y z H1 H2].
  - exists z. split; [done|apply rtc_refl].
  - exists y. split; [done|by apply tc_rtc].
Qed.

Lemma cycle_never_placed task_defs completed bs :
  distinct_names task_defs → rounds task_defs completed bs →
  (∀ x, tc (depends_on task_defs) x x → x ∉ completed) →
  ∀ x, tc (depends_on task_defs) x x → x ∉ completed ∪ names_of (concat bs).
Proof.
  intros Hdist. revert completed. induction bs as [|b bs IH]; intros completed Hr Hinv x Hx.
  - cbn [concat]. unfold names_of. cbn. rewrite (right_id_L ∅ (∪)). by apply Hinv.
  - destruct Hr as (Hb & _ & _ & Hr). rewrite names_of_concat_cons, (assoc_L (∪)).
    apply IH; [done| |done]. clear x Hx. intros x Hx Hplaced.
    apply elem_of_union in Hplaced as [Hplaced|Hplaced]; [by apply (Hinv x)|].
    rewrite Hb in Hplaced. apply elem_of_names_of in Hplaced as (task & Hready & <-).
    apply elem_of_ready_tasks in Hready as [[_ Hall] Hin].
    destruct (tc_first_step _ _ _ Hx) as (y & (task' & Hin' & Hname & Hdep) & Hback).
    assert (task' = task) as -> by (by apply (distinct_names_inj task_defs)).
    rewrite Forall_forall in Hall. apply (Hinv y); [|by apply Hall].
    eapply tc_rtc_l; [exact Hback|]. apply tc_once. by exists task.
Qed.

Lemma resolve_cycle task_defs :
  has_cycle task_defs →
  _resolve_dependencies task_defs = Some (Raise (ValueError circular_dependency_message)).
Proof.
  intros [a Ha]. destruct (resolve_total task_defs) as [[bs|e] Hres].
  - exfalso. apply resolve_loop_ok in Hres as (rest & Hbs & Hr & Hsize).
    cbn [app] in Hbs. subst rest. rewrite (left_id_L ∅ (∪)) in Hsize.
    assert (names_of (concat bs) ⊆ names_of task_defs) as Hsub.
    { intros x (task & Hin & <-)%elem_of_names_of. apply elem_of_names_of.
      exists task. split; [|done]. by eapply rounds_subset. }
    destruct (decide (NoDup (name <$> task_defs))) as [Hdist|Hdup].
    + assert (a ∉ names_of (concat bs)) as Hnot.
      { pose proof (cycle_never_placed task_defs ∅ bs Hdist Hr) as Hc.
        rewrite (left_id_L ∅ (∪)) in Hc. apply Hc; [|done]. intros; set_solver. }
      assert (a ∈ names_of task_defs) as Hain.
      { destruct (tc_first_step _ _ _ Ha) as (y & (task & Hin & Hname & _) & _).
        apply elem_of_names_of. eauto. }
      assert (names_of (concat bs) ⊂ names_of task_defs) as Hstrict by set_solver.
      apply subset_size in Hstrict.
      pose proof (size_list_to_set_le (name <$> task_defs)) as Hle.
      rewrite length_fmap in Hle. unfold names_of in *. lia.
    + apply subseteq_size in Hsub.
      pose proof (size_list_to_set_lt (name <$> task_defs) Hdup) as Hlt.
      rewrite length_fmap in Hlt. unfold names_of in *. lia.
  - rewrite Hres. by rewrite (resolve_loop_raise _ _ _ _ _ Hres).
Qed.

Lemma resolve_ok_acyclic task_defs bs :
  _resolve_dependencies task_defs = Some (Ok bs) → acyclic task_defs.
Proof.
  intros Hres a Ha. rewrite (resolve_cycle task_defs) in Hres; [done|by exists a].
Qed.

(** *** Validation *)

Lemma validate_deps_spec task_names task deps :
  match validate_deps task_names task deps with
  | Ok _ => Forall (λ dep, dep ∈ task_names) deps
  | Raise e =>
      ∃ dep, dep ∈ deps ∧ (dep ∉ task_names)
             ∧ e = ValueError (unknown_dependency_message task dep)
  end.
Proof.
  induction deps as [|dep deps IH]; cbn [validate_deps]; [constructor|].
  case_decide as Hin.
  - destruct (validate_deps task_names task deps).
    + by constructor.
    + destruct IH as (dep' & ? & ? & ?). exists dep'. split; [by right|done].
  - exists dep. split; [left|done].
Qed.

Lemma validate_tasks_spec task_names tasks :
  match validate_tasks task_names tasks with
  | Ok _ => Forall (λ task, Forall (λ dep, dep ∈ task_names) (dependencies task)) tasks
  | Raise e =>
      ∃ task dep, task ∈ tasks ∧ dep ∈ dependencies task ∧ (dep ∉ task_names)
                  ∧ e = ValueError (unknown_dependency_message (name task) dep)
  end.
Proof.
  induction tasks as [|task tasks IH]; cbn [validate_tasks]; [constructor|].
  pose proof (validate_deps_spec task_names (name task) (dependencies task)) as Hd.
  destruct (validate_deps task_names (name task) (dependencies task)).
  - destruct (validate_tasks task_names tasks).
    + by constructor.
    + destruct IH as (task' & dep & ? & ? & ? & ?). exists task', dep.
      split; [by right|done].
  - destruct Hd as (dep & ? & ? & ?). exists task, dep. split; [left|done].
Qed.

Lemma validate_ok_valid task_defs u :
  _validate_dependencies task_defs = Ok u → valid_dependencies task_defs.
Proof.
  unfold _validate_dependencies. intros Hv task dep Hin Hdep.
  pose proof (validate_tasks_spec (list_to_set (name <$> task_defs)) task_defs) as Hs.
  rewrite Hv in Hs. rewrite Forall_forall in Hs. specialize (Hs task Hin).
  rewrite Forall_forall in Hs. specialize (Hs dep Hdep).
  by apply (elem_of_names_of dep task_defs) in Hs.
Qed.

(** C7. If some task names a dependency that is not the name of any task of
    the list, [_validate_dependencies] raises the unknown-dependency error,
    whose message names an offending task and its dependency, and [execute]
    raises that error leaving its state as it was: no batch is stored in
    [self.batches], nothing is written to the store, nothing is printed. *)
Theorem unknown_dependency_rejected (task_defs : list TaskDefinition) :
  (∃ task dep, task ∈ task_defs ∧ dep ∈ dependencies task
               ∧ ∀ task', task' ∈ task_defs → name task' ≠ dep) →
  ∃ task dep,
    task ∈ task_defs ∧ dep ∈ dependencies task
    ∧ (∀ task', task' ∈ task_defs → name task' ≠ dep)
    ∧ _validate_dependencies task_defs
      = Raise (ValueError (unknown_dependency_message (name task) dep))
    ∧ ∀ (self : Orchestrator.t) env (s : Orchestrator.state),
        Orchestrator.task_defs self = task_defs →
        Orchestrator.execute self env s
        = (Raise (ValueError (unknown_dependency_message (name task) dep)), s).
Proof.
  intros (task0 & dep0 & Hin0 & Hdep0 & Hunknown).
  pose proof (validate_tasks_spec (list_to_set (name <$> task_defs)) task_defs) as Hs.
  destruct (validate_tasks (list_to_set (name <$> task_defs)) task_defs) as [u|e] eqn:Hv.
  - exfalso. rewrite Forall_forall in Hs. specialize (Hs task0 Hin0).
    rewrite Forall_forall in Hs. specialize (Hs dep0 Hdep0).
    apply (elem_of_names_of dep0 task_defs) in Hs as (task' & Hin' & Hname).
    by apply (Hunknown task').
  - destruct Hs as (task & dep & Hin & Hdep & Hnot & ->).
    exists task, dep. split; [done|]. split; [done|]. split; [|split; [done|]].
    + intros task' Hin' Hname. apply Hnot. apply (elem_of_names_of dep task_defs). eauto.
    + intros self env s Hself. unfold Orchestrator.execute. rewrite Hself.
      unfold _validate_dependencies. rewrite Hv. reflexivity.
Qed.

(** C6. If the dependency relation of the task list contains a cycle,
    [_resolve_dependencies] raises the circular-dependency error (it returns no
    batches), and [execute] raises, the validation error if validation fails
    first and the circular-dependency error otherwise, leaving its state as it
    was: nothing is executed for the run. *)
Theorem cyclic_dependency_rejected (task_defs : list TaskDefinition) :
  has_cycle task_defs →
  _resolve_dependencies task_defs
  = Some (Raise (ValueError circular_dependency_message))
  ∧ ∀ (self : Orchestrator.t) env (s : Orchestrator.state),
      Orchestrator.task_defs self = task_defs →
      Orchestrator.execute self env s
      = (Raise (match _validate_dependencies task_defs with
                | Raise e => e
                | Ok _ => ValueError circular_dependency_message
                end), s).
Proof.
  intros Hcycle. pose proof (resolve_cycle task_defs Hcycle) as Hres.
  split; [done|]. intros self env s Hself.
  unfold Orchestrator.execute. rewrite Hself, Hres.
  destruct (_validate_dependencies task_defs); reflexivity.
Qed.

(** C4. For a list of tasks with distinct names, known dependency names and no
    dependency cycle, [_resolve_dependencies] returns batches such that: the
    batches together are a permutation of the task list; no task is in two
    batches; every dependency of a task is placed in a batch of strictly
    smaller index; a task in batch [i] has, for every [j < i], a dependency
    that is not placed before batch [j] (it is in the earliest batch whose
    predecessors satisfy its dependencies); and every batch is a subsequence
    of the task list (input order is kept). For A, B depending on A and C
    depending on A the result is [[A], [B, C]]. *)
Theorem resolver_batches :
  (∀ task_defs : list TaskDefinition,
     distinct_names task_defs → valid_dependencies task_defs → acyclic task_defs →
     ∃ batches,
       _resolve_dependencies task_defs = Some (Ok batches)
       ∧ concat batches ≡ₚ task_defs
       ∧ (∀ i j b b' task, batches !! i = Some b → batches !! j = Some b' →
                           task ∈ b → task ∈ b' → i = j)
       ∧ (∀ i b task dep, batches !! i = Some b → task ∈ b →
                          dep ∈ dependencies task →
            ∃ j b' task', (j < i)%nat ∧ batches !! j = Some b'
                          ∧ task' ∈ b' ∧ name task' = dep)
       ∧ (∀ i j b task, batches !! i = Some b → task ∈ b → (j < i)%nat →
            ∃ dep, dep ∈ dependencies task
                   ∧ (dep ∉ names_of (concat (take j batches))))
       ∧ (∀ b, b ∈ batches → sublist b task_defs))
  ∧ _resolve_dependencies
      [mk_task "A" []; mk_task "B" ["A"]; mk_task "C" ["A"]]
    = Some (Ok [[mk_task "A" []]; [mk_task "B" ["A"]; mk_task "C" ["A"]]]).
Proof.
  split; [|vm_compute; reflexivity].
  intros task_defs Hdist Hvalid Hacyc.
  destruct (resolve_loop_progress (S (length task_defs)) task_defs ∅ [])
    as [batches Hres].
  { intros c. by apply acyclic_ready. }
  { lia. }
  exists batches. split; [exact Hres|].
  apply resolve_loop_ok in Hres as (rest & Hbs & Hr & Hsize).
  cbn [app] in Hbs. subst rest. rewrite (left_id_L ∅ (∪)) in Hsize.
  split; [by apply rounds_permutation|].
  split; [intros i j b b' task Hi Hj Hin Hin'; by eapply rounds_names_once|].
  split; [intros i b task dep; by apply (rounds_dependencies_before task_defs)|].
  split; [intros i j b task; by apply (rounds_earliest task_defs)|].
  intros b Hb. apply list_elem_of_lookup in Hb as [i Hi].
  rewrite (rounds_lookup _ _ _ _ _ Hr Hi). apply ready_tasks_sublist.
Qed.

Lemma resolver_batches_witness :
  ∃ batches,
    _resolve_dependencies [mk_task "A" []; mk_task "B" ["A"]; mk_task "C" ["A"]]
    = Some (Ok batches)
    ∧ concat batches ≡ₚ [mk_task "A" []; mk_task "B" ["A"]; mk_task "C" ["A"]].
Proof.
  destruct (proj1 resolver_batches
              [mk_task "A" []; mk_task "B" ["A"]; mk_task "C" ["A"]])
    as (batches & Hres & Hperm & _).
  - unfold distinct_names. vm_compute. repeat constructor; set_solver.
  - apply (validate_ok_valid _ tt). vm_compute. reflexivity.
  - apply (resolve_ok_acyclic _ [[mk_task "A" []]; [mk_task "B" ["A"]; mk_task "C" ["A"]]]).
    vm_compute. reflexivity.
  - exists batches. split; [exact Hres|exact Hperm].
Defined.

(** The batches the resolver returns hold every task exactly once, whatever
    the task list: a list with a repeated name never resolves. *)
Lemma resolve_ok_distinct task_defs bs :
  _resolve_dependencies task_defs = Some (Ok bs) → distinct_names task_defs.
Proof.
  intros Hres. apply resolve_loop_ok in Hres as (rest & Hbs & Hr & Hsize).
  cbn [app] in Hbs. subst rest. rewrite (left_id_L ∅ (∪)) in Hsize.
  destruct (decide (NoDup (name <$> task_defs))) as [Hdist|Hdup]; [done|exfalso].
  assert (names_of (concat bs) ⊆ names_of task_defs) as Hsub.
  { intros x (task & Hin & <-)%elem_of_names_of. apply elem_of_names_of.
    exists task. split; [|done]. by eapply rounds_subset. }
  apply subseteq_size in Hsub.
  pose proof (size_list_to_set_lt (name <$> task_defs) Hdup) as Hlt.
  rewrite length_fmap in Hlt. unfold names_of in *. lia.
Qed.

Lemma resolve_ok_permutation task_defs bs :
  _resolve_dependencies task_defs = Some (Ok bs) → concat bs ≡ₚ task_defs.
Proof.
  intros Hres. pose proof (resolve_ok_distinct _ _ Hres) as Hdist.
  apply resolve_loop_ok in Hres as (rest & Hbs & Hr & Hsize).
  cbn [app] in Hbs. subst rest. rewrite (left_id_L ∅ (∪)) in Hsize.
  by apply rounds_permutation.
Qed.

Ltac run_monad :=
  unfold transaction, mbind, M_bind, bind, try_except, mret, M_ret, ret, raise,
    sql_begin, sql_commit, sql_rollback, conn_execute, datetime_now;
  cbn.

Lemma append_event_calm et run w t p c :
  calm c →
  append_event et run w t p c
  = (Ok (events_seq (data c) + 1),
     with_data (snd (sql_insert_event run w et t
                       (match p with
                        | Some p' => if payload_truthy p' then Some p' else None
                        | None => None
                        end) (clock c) (data c))) c).
Proof.
  destruct c as [d snap fs now off]. intros [Hs Hf]. cbn in Hs, Hf. subst.
  unfold append_event. run_monad. reflexivity.
Qed.

Lemma update_worker_status_calm w run state progress task message c :
  calm c →
  update_worker_status w run state progress task message c
  = (Ok tt, with_data (set_workers (upsert_worker w run state progress task message (clock c))
                         (data c)) c).
Proof.
  destruct c as [d snap fs now off]. intros [Hs Hf]. cbn in Hs, Hf. subst.
  unfold update_worker_status, upsert_worker. run_monad.
  unfold with_data, set_workers. cbn.
  destruct (workers d !! w) eqn:Hw; cbn; reflexivity.
Qed.

Lemma with_data_calm d c : calm c → calm (with_data d c).
Proof. by intros [? ?]. Qed.

Ltac split_faults :=
  repeat match goal with
         | |- context [match ?fs with [] => _ | _ :: _ => _ end] =>
             is_var fs; destruct fs as [|[] ?]; cbn
         end.

(** C9. Outside any open transaction, and whichever statements fail:
    [update_worker_status] either returns with the upsert applied or raises
    with the database as it was before the call, and [create_block] either
    returns [True] with the lease inserted, returns [False] with the database
    unchanged, or raises with the database as it was before the call. In every
    case no transaction is left open. *)
Theorem transaction_all_or_nothing (c : conn) :
  snapshot c = None →
  (∀ worker_id run_id state progress task_id message,
     let out := update_worker_status worker_id run_id state progress task_id message c in
     snapshot (snd out) = None
     ∧ match fst out with
       | Ok _ =>
           data (snd out)
           = set_workers (upsert_worker worker_id run_id state progress task_id
                            message (clock c)) (data c)
       | Raise _ => data (snd out) = data c
       end)
  ∧ (∀ worker_id hook_event reason duration_seconds max_retries,
       let out := create_block worker_id hook_event reason duration_seconds max_retries c in
       snapshot (snd out) = None
       ∧ match fst out with
         | Ok true =>
             data (snd out)
             = with_new_block worker_id hook_event reason duration_seconds
                 max_retries (clock c + utc_offset c) (clock c) (data c)
         | Ok false => data (snd out) = data c
         | Raise _ => data (snd out) = data c
         end).
Proof.
  destruct c as [d snap fs now off]. cbn. intros ->. split.
  - intros w run state progress task message.
    unfold update_worker_status, upsert_worker, set_workers. run_monad.
    destruct (workers d !! w) eqn:Hw;
      repeat (progress (split_faults; cbn; rewrite ?Hw; cbn)); auto.
  - intros w h reason dur maxr.
    unfold create_block, with_new_block, next_retry_count. run_monad.
    destruct (latest_block (filter (block_matches w h) (blocks d))) as [r|] eqn:Hl;
      repeat (progress (split_faults; cbn; rewrite ?Hl; cbn; try case_decide; cbn)); auto.
Qed.

(** *** Blocks *)

Lemma create_block_calm w h reason dur maxr c :
  calm c →
  create_block w h reason dur maxr c
  = if decide (next_retry_count (blocks (data c)) w h >= maxr) then (Ok false, c)
    else (Ok true,
          with_data (with_new_block w h reason dur maxr (clock c + utc_offset c)
                       (clock c) (data c)) c).
Proof.
  destruct c as [d snap fs now off]. intros [Hs Hf]. cbn in Hs, Hf. subst.
  unfold create_block, with_new_block, with_data, next_retry_count. run_monad.
  destruct (latest_block (filter (block_matches w h) (blocks d))) as [r|] eqn:Hl; cbn;
    case_decide; cbn; rewrite ?Hl; reflexivity.
Qed.

Lemma get_active_blocks_calm hook c :
  calm c →
  get_active_blocks hook c
  = (Ok (filter (λ r, clock c < b_expires_at r ∧ hook_filter hook r)
           (filter (λ r, ¬ b_expires_at r < clock c) (blocks (data c)))),
     with_data (set_blocks (filter (λ r, ¬ b_expires_at r < clock c)) id (data c)) c).
Proof.
  destruct c as [d snap fs now off]. intros [Hs Hf]. cbn in Hs, Hf. subst.
  unfold get_active_blocks. run_monad. reflexivity.
Qed.


Lemma set_clock_calm now c : calm c → calm (set_clock now c).
Proof. by intros [? ?]. Qed.





(** The expiry follows the local time of the host. A lease of 5 seconds
    created when the UTC clock reads 0 is still listed a minute later on a
    host one hour ahead of UTC, and is not listed even at once on a host one
    hour behind. *)
Example lease_follows_local_time :
  let ahead := set_utc_offset 3600 (open_conn empty_db 0) in
  let behind := set_utc_offset (-3600) (open_conn empty_db 0) in
  (b_expires_at
     <$> active_blocks None
           (set_clock 60 (snd (create_block "W-a" "Stop" "workers running" 5 3 ahead)))
   = [3605])
  ∧ active_blocks None (snd (create_block "W-a" "Stop" "workers running" 5 3 behind))
    = [].
Proof. split; vm_compute; reflexivity. Qed.

(** *** Worker status *)

Lemma upsert_worker_lookup w run state progress task message now m :
  ∃ row, upsert_worker w run state progress task message now m !! w = Some row
         ∧ w_state row
           = default (default WorkerState.IDLE (w_state <$> m !! w)) state
         ∧ w_progress row = default (default 0 (w_progress <$> m !! w)) progress
         ∧ w_last_message row
           = match message with
             | Some msg => Some msg
             | None => m !! w ≫= w_last_message
             end.
Proof.
  unfold upsert_worker. destruct (m !! w) as [row|] eqn:Hw.
  - eexists. rewrite lookup_alter_eq, Hw. split; [reflexivity|].
    cbn. destruct state, progress, message; done.
  - eexists. rewrite lookup_insert_eq. split; [reflexivity|].
    cbn. destruct state, progress, message; done.
Qed.

Lemma upsert_worker_lookup_ne w w' run state progress task message now m :
  w ≠ w' → upsert_worker w run state progress task message now m !! w' = m !! w'.
Proof.
  intros Hne. unfold upsert_worker. destruct (m !! w).
  - by rewrite lookup_alter_ne.
  - by rewrite lookup_insert_ne.
Qed.

Lemma apply_update_calm c u : calm c → calm (apply_update c u).
Proof.
  intros Hc. unfold apply_update. rewrite update_worker_status_calm by done.
  by apply with_data_calm.
Qed.

Lemma apply_update_state c u w :
  calm c →
  worker_state (apply_update c u) w
  = if decide (u_worker_id u = w)
    then Some (default (default WorkerState.IDLE (worker_state c w)) (u_state u))
    else worker_state c w.
Proof.
  intros Hc. unfold apply_update, worker_state.
  rewrite update_worker_status_calm by done. cbn. case_decide as Hw.
  - subst w.
    destruct (upsert_worker_lookup (u_worker_id u) (u_run_id u) (u_state u)
                (u_progress u) (u_task_id u) (u_message u) (clock c)
                (workers (data c))) as (row & -> & Hst & _).
    cbn. by rewrite Hst.
  - by rewrite upsert_worker_lookup_ne.
Qed.

Module V1Facts.
Import V1.

Lemma lookup_worker_app k m m' :
  lookup_worker k (m ++ m')
  = match lookup_worker k m with Some x => Some x | None => lookup_worker k m' end.
Proof.
  induction m as [|[k0 x] m IH]; cbn; [done|]. case_decide; done.
Qed.

Lemma lookup_alter_worker f k k' m :
  lookup_worker k (alter_worker f k' m)
  = if decide (k' = k) then f <$> lookup_worker k m else lookup_worker k m.
Proof.
  induction m as [|[k0 x] m IH]; cbn; [by case_decide|].
  repeat case_decide; cbn in *; subst; try done; repeat case_decide; try done.
Qed.

Lemma lookup_ensure_worker k k' tk m :
  lookup_worker k (ensure_worker k' tk m)
  = match lookup_worker k m with
    | Some x => Some x
    | None => if decide (k' = k) then Some (initial_status k' tk) else None
    end.
Proof.
  unfold ensure_worker. destruct (lookup_worker k' m) as [x'|] eqn:Hk'.
  - destruct (lookup_worker k m) eqn:Hk; [done|]. case_decide; [congruence|done].
  - rewrite lookup_worker_app. cbn. destruct (lookup_worker k m); [done|].
    unfold initial_status. case_decide; done.
Qed.

Lemma apply_event_lookup v event k :
  lookup_worker k (workers_map (apply_event v event))
  = if decide (nonempty (w event) = Some k)
    then Some (apply_to_worker event
                 (default (initial_status k (task event))
                    (lookup_worker k (workers_map v))))
    else lookup_worker k (workers_map v).
Proof.
  unfold apply_event. destruct (nonempty (w event)) as [k'|] eqn:Hw.
  - assert (lookup_worker k
              (alter_worker (apply_to_worker event) k'
                 (ensure_worker k' (task event) (workers_map v)))
            = if decide (Some k' = Some k)
              then Some (apply_to_worker event
                           (default (initial_status k (task event))
                              (lookup_worker k (workers_map v))))
              else lookup_worker k (workers_map v)) as Hm.
    { rewrite lookup_alter_worker, lookup_ensure_worker.
      repeat case_decide; simplify_eq; try done;
        destruct (lookup_worker k (workers_map v)); done. }
    destruct (t event), (nonempty (task event)); cbn; exact Hm.
  - case_decide; done.
Qed.

Lemma apply_to_worker_id event x : ws_id (apply_to_worker event x) = ws_id x.
Proof.
  unfold apply_to_worker.
  destruct (t event), (pct event), (nonempty (msg event)); cbn; try done;
    repeat case_match; done.
Qed.

Lemma apply_event_keyed v event :
  keyed (workers_map v) → keyed (workers_map (apply_event v event)).
Proof.
  intros Hk. unfold apply_event. destruct (nonempty (w event)) as [k|]; [|done].
  assert (keyed (alter_worker (apply_to_worker event) k
                   (ensure_worker k (task event) (workers_map v)))) as Hm.
  { unfold keyed, alter_worker. apply Forall_fmap. unfold ensure_worker.
    assert (keyed (match lookup_worker k (workers_map v) with
                   | Some _ => workers_map v
                   | None => workers_map v ++ [(k, initial_status k (task event))]
                   end)) as He.
    { destruct (lookup_worker k (workers_map v)); [done|].
      apply Forall_app. split; [done|]. by repeat constructor. }
    eapply Forall_impl; [exact He|]. intros [k0 x] Hx. cbn in *.
    case_decide; cbn; [|done]. by rewrite apply_to_worker_id. }
  destruct (t event), (nonempty (task event)); exact Hm.
Qed.

Lemma foldl_apply_event_keyed events v :
  keyed (workers_map v) → keyed (workers_map (foldl apply_event v events)).
Proof.
  revert v. induction events as [|e es IH]; intros v Hk; [done|].
  cbn. apply IH. by apply apply_event_keyed.
Qed.

Lemma find_status_keyed k m :
  keyed m → find_status k (snd <$> m) = lookup_worker k m.
Proof.
  induction m as [|[k0 x] m IH]; intros Hk; [done|].
  apply Forall_cons in Hk as [Hx Hk]. cbn in *. rewrite Hx.
  case_decide; [done|]. by apply IH.
Qed.

Lemma state_of_lookup run_id events k :
  state_of run_id events k
  = ws_state <$> lookup_worker k (workers_map (foldl apply_event initial_vars events)).
Proof.
  unfold state_of, compute_status. cbn. fold initial_vars.
  rewrite find_status_keyed; [done|]. apply foldl_apply_event_keyed. constructor.
Qed.

Lemma apply_event_terminal v event k s :
  ws_state <$> lookup_worker k (workers_map v) = Some s → terminal s →
  (nonempty (w event) = Some k → ¬ reverting event) →
  ∃ s', ws_state <$> lookup_worker k (workers_map (apply_event v event)) = Some s'
        ∧ terminal s'.
Proof.
  intros Hs Hterm Hkeep. rewrite apply_event_lookup. case_decide as Hw; [|eauto].
  specialize (Hkeep Hw). unfold reverting in Hkeep.
  destruct (lookup_worker k (workers_map v)) as [x|]; [|done].
  cbn in Hs. injection Hs as <-. cbn. unfold apply_to_worker.
  destruct (t event) eqn:Ht.
  - exfalso. apply Hkeep. by left.
  - destruct (contains "waiting" (lower (default EmptyString (nonempty (msg event)))))
      eqn:Hwait.
    + exfalso. apply Hkeep. by right.
    + destruct (pct event), (nonempty (msg event)); cbn; eauto.
  - eauto.
  - destruct (nonempty (msg event)); cbn; eexists; (split; [done|by right]).
  - cbn. eexists. split; [done|by left].
  - eauto.
Qed.

Lemma foldl_apply_event_terminal events v k s :
  ws_state <$> lookup_worker k (workers_map v) = Some s → terminal s →
  Forall (λ event, nonempty (w event) = Some k → ¬ reverting event) events →
  ∃ s', ws_state <$> lookup_worker k (workers_map (foldl apply_event v events)) = Some s'
        ∧ terminal s'.
Proof.
  revert v s. induction events as [|e es IH]; intros v s Hs Hterm Hall; [eauto|].
  apply Forall_cons in Hall as [He Hall]. cbn.
  destruct (apply_event_terminal v e k s Hs Hterm He) as (s1 & Hs1 & Hterm1).
  by apply (IH _ s1).
Qed.
End V1Facts.

Lemma bind_Ok {S A B} (m : M S A) (k : A → M S B) s a s' :
  m s = (Ok a, s') → (m ≫= k) s = k a s'.
Proof. intros H. unfold mbind, M_bind, bind. by rewrite H. Qed.

Lemma bind_Raise {S A B} (m : M S A) (k : A → M S B) s e s' :
  m s = (Raise e, s') → (m ≫= k) s = (Raise e, s').
Proof. intros H. unfold mbind, M_bind, bind. by rewrite H. Qed.

Lemma try_except_Raise {S A} (m : M S A) h s e s' :
  m s = (Raise e, s') → try_except m h s = h e s'.
Proof. intros H. unfold try_except. by rewrite H. Qed.

Lemma append_event_effect et run w t p c :
  calm c →
  append_event et run w t p c
  = (Ok (events_seq (data c) + 1), with_data (event_effect et run w t p (clock c) (data c)) c).
Proof. apply append_event_calm. Qed.

Lemma events_event_effect et run w t p now d :
  events (event_effect et run w t p now d)
  = events d ++ [{| ev_id := events_seq d + 1; ev_timestamp := now; ev_run_id := run;
                    ev_worker_id := w; ev_event_type := et; ev_task_id := t;
                    ev_payload := match p with
                                  | Some p' => if payload_truthy p' then Some p' else None
                                  | None => None
                                  end |}].
Proof. done. Qed.

(** *** Ready artifacts *)

Lemma get_ready_artifacts_calm run_id c :
  calm c →
  get_ready_artifacts run_id c
  = (Ok (remove_dups (omap (artifact_of_completed_task (data c) run_id) (events (data c)))), c).
Proof.
  destruct c as [d snap fs now off]. intros [Hs Hf]. cbn in Hs, Hf. subst.
  unfold get_ready_artifacts. run_monad. reflexivity.
Qed.

Lemma artifact_of_completed_task_Some d run_id e p :
  artifact_of_completed_task d run_id e = Some p
  ↔ ∃ task_id task,
      ev_event_type e = EventType.ARTIFACT ∧ ev_run_id e = run_id
      ∧ ev_task_id e = Some task_id ∧ tasks d !! task_id = Some task
      ∧ t_state task = "completed" ∧ json_extract_path (ev_payload e) = Some p.
Proof.
  unfold artifact_of_completed_task. split.
  - destruct (ev_task_id e) as [task_id|]; [|done].
    destruct (tasks d !! task_id) as [task|] eqn:Ht; [|done].
    case_decide as Hw; [|done]. destruct Hw as (? & ? & ?). intros Hp.
    exists task_id, task. done.
  - intros (task_id & task & Het & Hrun & -> & -> & Hst & Hp).
    by rewrite decide_True.
Qed.

Lemma v1_done_workers (events : list V1.Event) (k : string) :
  k ∈ (list_to_set
         (omap (λ event, if decide (V1.t event = V1.DONE) then V1.nonempty (V1.w event)
                         else None) events) : gset string)
  ↔ ∃ e, e ∈ events ∧ V1.t e = V1.DONE ∧ V1.nonempty (V1.w e) = Some k.
Proof.
  rewrite elem_of_list_to_set, list_elem_of_omap. split.
  - intros (e & Hin & He). case_decide; [|done]. eauto.
  - intros (e & Hin & Ht & Hw). exists e. split; [done|]. by rewrite decide_True.
Qed.

(** C3 (amended). On a store at rest, [get_ready_artifacts(run_id)] of the
    SQLite store returns, without repetition, exactly the paths of the
    artifact events of the run whose [task_id] names a task row in state
    [completed]; it leaves the store as it was and does not read the worker
    table. [get_ready_artifacts] of the JSON-lines store returns exactly the
    non-empty paths of the artifact events whose worker has a done event in
    the log. *)
Theorem ready_artifacts_follow_task_state :
  (∀ (c : conn) (run_id : string),
     calm c →
     ∃ paths,
       get_ready_artifacts run_id c = (Ok paths, c)
       ∧ NoDup paths
       ∧ ∀ p, p ∈ paths
              ↔ ∃ e task_id task,
                  e ∈ events (data c)
                  ∧ ev_event_type e = EventType.ARTIFACT
                  ∧ ev_run_id e = run_id
                  ∧ ev_task_id e = Some task_id
                  ∧ tasks (data c) !! task_id = Some task
                  ∧ t_state task = "completed"
                  ∧ json_extract_path (ev_payload e) = Some p)
  ∧ (∀ (events : list V1.Event) (p : string),
       p ∈ V1.get_ready_artifacts events
       ↔ ∃ e k,
           e ∈ events ∧ V1.t e = V1.ARTIFACT ∧ V1.w e = Some k
           ∧ V1.nonempty (V1.path e) = Some p
           ∧ ∃ e', e' ∈ events ∧ V1.t e' = V1.DONE ∧ V1.nonempty (V1.w e') = Some k).
Proof.
  split.
  - intros c run_id Hc. eexists. split; [by apply get_ready_artifacts_calm|].
    split; [apply NoDup_remove_dups|]. intros p.
    rewrite elem_of_remove_dups, list_elem_of_omap. split.
    + intros (e & Hin & He). apply artifact_of_completed_task_Some in He
        as (task_id & task & ?). exists e, task_id, task. tauto.
    + intros (e & task_id & task & Hin & ?). exists e. split; [done|].
      apply artifact_of_completed_task_Some. exists task_id, task. tauto.
  - intros events p. unfold V1.get_ready_artifacts. rewrite list_elem_of_omap. split.
    + intros (e & Hin & He).
      destruct (bool_decide (V1.t e = V1.ARTIFACT)) eqn:Ht; [|done].
      apply bool_decide_eq_true in Ht. cbn in He.
      destruct (V1.w e) as [k|] eqn:Hw; [|done].
      destruct (bool_decide (k ∈ _)) eqn:Hk in He; [|done].
      apply bool_decide_eq_true in Hk. apply v1_done_workers in Hk.
      exists e, k. done.
    + intros (e & k & Hin & Ht & Hw & Hp & Hdone). exists e. split; [done|].
      rewrite Hw. apply v1_done_workers in Hdone.
      rewrite (bool_decide_true _ Ht), (bool_decide_true _ Hdone). done.
Qed.

Lemma ready_artifacts_counterexample :
  fst (get_ready_artifacts "R1" (open_conn failed_worker_db 0))
  = Ok ["workers/W-t1/output.txt"]
  ∧ worker_state (open_conn failed_worker_db 0) "W-t1" = Some WorkerState.ERROR.
Proof. split; vm_compute; reflexivity. Qed.

Lemma ready_artifacts_follow_task_state_witness :
  ∃ paths,
    get_ready_artifacts "R1" (open_conn failed_worker_db 0)
    = (Ok paths, open_conn failed_worker_db 0)
    ∧ NoDup paths.
Proof.
  destruct (proj1 ready_artifacts_follow_task_state (open_conn failed_worker_db 0) "R1")
    as (paths & Hget & Hnd & _); [split; reflexivity|].
  exists paths. split; [exact Hget|exact Hnd].
Defined.

(** *** Terminal states *)

(** C2 (amended). [update_worker_status] writes the state it is given and
    keeps the stored state when it is given none. So a worker in a terminal
    state (done, error, dead) stays in a terminal state through any sequence
    of calls each of which is for another worker, passes no state, or passes a
    terminal state. In the projection [compute_status], a worker reported done
    or error is still reported done or error after any further events none of
    which, for that worker, is a start or a progress report whose message
    mentions waiting. *)
Theorem terminal_state_kept_unless_overwritten :
  (∀ (c : conn) (us : list status_update) (worker_id : string) (s : WorkerState.t),
     calm c → worker_state c worker_id = Some s → terminal s →
     Forall (keeps_terminal worker_id) us →
     ∃ s', worker_state (foldl apply_update c us) worker_id = Some s' ∧ terminal s')
  ∧ (∀ (c : conn) (u : status_update),
       calm c →
       worker_state (apply_update c u) (u_worker_id u)
       = Some (default (default WorkerState.IDLE (worker_state c (u_worker_id u)))
                 (u_state u)))
  ∧ (∀ (run_id : string) (events later : list V1.Event) (k s : string),
       V1.state_of run_id events k = Some s → V1.terminal s →
       Forall (λ event, V1.nonempty (V1.w event) = Some k → ¬ V1.reverting event) later →
       ∃ s', V1.state_of run_id (events ++ later) k = Some s' ∧ V1.terminal s').
Proof.
  split; [|split].
  - intros c us worker_id. revert c.
    induction us as [|u us IH]; intros c s Hc Hs Hterm Hall; [eauto|].
    apply Forall_cons in Hall as [Hu Hall]. cbn [foldl].
    pose proof (apply_update_state c u worker_id Hc) as Hstep.
    case_decide as Hw.
    + apply (IH (apply_update c u) _ (apply_update_calm c u Hc) Hstep); [|done].
      specialize (Hu Hw). rewrite Hs. destruct (u_state u); done.
    + rewrite Hs in Hstep.
      by apply (IH (apply_update c u) s (apply_update_calm c u Hc) Hstep).
  - intros c u Hc. rewrite apply_update_state by done. by rewrite decide_True.
  - intros run_id events later k s Hs Hterm Hall.
    rewrite V1Facts.state_of_lookup in *. rewrite foldl_app.
    by apply (V1Facts.foldl_apply_event_terminal later _ k s).
Qed.

Lemma terminal_state_counterexample :
  worker_state after_report_done "W-a" = Some WorkerState.DONE
  ∧ worker_state
      (snd (update_worker_status "W-a" "R1" (Some WorkerState.BUSY) None None None
              after_report_done)) "W-a"
    = Some WorkerState.BUSY
  ∧ V1.state_of "R1" [done_event] "W-a" = Some "done"
  ∧ V1.state_of "R1" [done_event; start_event] "W-a" = Some "running".
Proof. repeat split; vm_compute; reflexivity. Qed.

Lemma terminal_state_kept_witness :
  ∃ s', worker_state
          (foldl apply_update after_report_done
             [{| u_worker_id := "W-a"; u_run_id := "R1"; u_state := None;
                 u_progress := Some 100; u_task_id := None; u_message := None |};
              {| u_worker_id := "W-b"; u_run_id := "R1"; u_state := Some WorkerState.BUSY;
                 u_progress := Some 10; u_task_id := None; u_message := None |}]) "W-a"
        = Some s' ∧ terminal s'.
Proof.
  apply (proj1 terminal_state_kept_unless_overwritten after_report_done _ "W-a"
           WorkerState.DONE).
  - split; reflexivity.
  - vm_compute. reflexivity.
  - by left.
  - apply Forall_cons. split; [intros _; exact I|].
    apply Forall_cons. split; [intros Hw; discriminate Hw|constructor].
Defined.

(** *** The store calls of the worker and the orchestrator *)

(** Called with a member, [append_event_any] is [append_event]. *)
Lemma append_event_any_member event_type run w t p :
  append_event_any (Member event_type) run w t p = append_event event_type run w t p.
Proof. reflexivity. Qed.

Lemma append_event_by_value_raises event_type run w t p c :
  ∃ e c', append_event_by_value event_type run w t p c = (Raise e, c')
          ∧ data c' = data c
          ∧ (calm c → e = no_attribute "str" "value" ∧ c' = c).
Proof.
  destruct c as [d snap fs now off].
  unfold append_event_by_value, append_event_any, value_of, calm. run_monad.
  destruct fs as [|[] fs]; cbn; destruct snap; cbn;
    (eexists _, _; split; [reflexivity|]; split; [reflexivity|]);
    intros [Hs Hf]; cbn in *; try discriminate; by subst.
Qed.

Lemma execute_command_raises self command working_dir timeout env c :
  ∃ e c', Worker.execute_command self command working_dir timeout env c = (Raise e, c')
          ∧ data c' = data c
          ∧ (calm c → e = no_attribute "str" "value" ∧ c' = c).
Proof.
  destruct (append_event_by_value_raises (V1.value V1.START) (Worker.run_id self)
              (Some (Worker.worker_id self)) (Some (Worker.task_id self))
              (Some (PStart command None)) c) as (e & c' & Hraise & Hrest).
  exists e, c'. split; [|done].
  unfold Worker.execute_command. by erewrite bind_Raise.
Qed.

Lemma with_store_same s : Orchestrator.with_store (Orchestrator.store s) s = s.
Proof. by destruct s. Qed.

Lemma unchanged_trans s1 s2 s3 :
  Orchestrator.unchanged s1 s2 → Orchestrator.unchanged s2 s3 →
  Orchestrator.unchanged s1 s3.
Proof. intros (? & ? & ?) (? & ? & ?). repeat split; congruence. Qed.

Lemma in_store_append_raises event_type run w t p s :
  ∃ e s', Orchestrator.in_store (append_event_by_value event_type run w t p) s
          = (Raise e, s')
          ∧ Orchestrator.unchanged s s'
          ∧ (calm (Orchestrator.store s) → e = no_attribute "str" "value" ∧ s' = s).
Proof.
  destruct (append_event_by_value_raises event_type run w t p (Orchestrator.store s))
    as (e & c' & Hraise & Hdata & Hcalm).
  exists e, (Orchestrator.with_store c' s). split.
  - unfold Orchestrator.in_store. by rewrite Hraise.
  - split; [done|]. intros Hc. destruct (Hcalm Hc) as [-> ->].
    split; [done|apply with_store_same].
Qed.

Lemma record_error_raises self task_def worker_id msg s :
  ∃ e s', Orchestrator.record_error self task_def worker_id msg s = (Raise e, s')
          ∧ Orchestrator.unchanged s s'
          ∧ (calm (Orchestrator.store s) → e = no_attribute "str" "value" ∧ s' = s).
Proof.
  destruct (in_store_append_raises (V1.value V1.ERROR) (Orchestrator.run_id self)
              (Some worker_id) (Some (name task_def)) (Some (PError msg)) s)
    as (e & s' & Hraise & Hrest).
  exists e, s'. split; [|done].
  unfold Orchestrator.record_error. by erewrite bind_Raise.
Qed.

Lemma execute_task_raises self env task_def worker_id s :
  ∃ e s', Orchestrator._execute_task self env task_def worker_id s = (Raise e, s')
          ∧ Orchestrator.unchanged s s'
          ∧ (calm (Orchestrator.store s) → e = no_attribute "str" "value" ∧ s' = s).
Proof.
  unfold Orchestrator._execute_task. cbv zeta.
  match goal with
  | |- ∃ e s', try_except ?inner _ s = _ ∧ _ =>
      assert (∃ e1 s1, inner s = (Raise e1, s1) ∧ Orchestrator.unchanged s s1
                       ∧ (calm (Orchestrator.store s) → s1 = s))
        as (e1 & s1 & Hinner & Hun1 & Hcalm1)
  end.
  { match goal with
    | |- ∃ e1 s1, try_except ?body _ s = _ ∧ _ =>
        assert (∃ e0 s0, body s = (Raise e0, s0) ∧ Orchestrator.unchanged s s0
                         ∧ (calm (Orchestrator.store s) → s0 = s))
          as (e0 & s0 & Hbody & Hun0 & Hcalm0)
    end.
    { destruct env as [proc|e0]; cbn [subprocess_run].
      - erewrite bind_Ok; [|reflexivity]. cbv beta.
        destruct (bool_decide (returncode proc = 0)).
        + match goal with
          | |- context [Orchestrator.in_store (append_event_by_value ?et ?run ?w ?t ?p)] =>
              destruct (in_store_append_raises et run w t p s)
                as (e0 & s0 & Hraise & Hun0 & Hcalm0)
          end.
          exists e0, s0. split; [|split; [done|]].
          * erewrite bind_Raise; [done|]. by erewrite bind_Raise.
          * intros Hc. by destruct (Hcalm0 Hc).
        + match goal with
          | |- context [Orchestrator.record_error self task_def worker_id ?msg] =>
              destruct (record_error_raises self task_def worker_id msg s)
                as (e0 & s0 & Hraise & Hun0 & Hcalm0)
          end.
          exists e0, s0. split; [|split; [done|]].
          * by erewrite bind_Raise.
          * intros Hc. by destruct (Hcalm0 Hc).
      - exists e0, s. split; [|split; [done|done]].
        by erewrite bind_Raise. }
    rewrite (try_except_Raise _ _ _ _ _ Hbody).
    destruct (record_error_raises self task_def worker_id
                (Orchestrator.timeout_message (timeout task_def)) s0)
      as (e1 & s1 & Hraise & Hun1 & Hcalm1).
    assert (calm (Orchestrator.store s) → s1 = s) as Hboth.
    { intros Hc. specialize (Hcalm0 Hc). subst s0. by destruct (Hcalm1 Hc). }
    destruct e0;
      first [ exists e1, s1; split;
                [by erewrite bind_Raise|split; [by eapply unchanged_trans|done] ]
            | eexists _, s0; split; [reflexivity|done] ]. }
  rewrite (try_except_Raise _ _ _ _ _ Hinner).
  destruct (record_error_raises self task_def worker_id
              (Orchestrator.exception_message e1) s1)
    as (e & s' & Hraise & Hun & Hcalm).
  exists e, s'. split; [by erewrite bind_Raise|].
  split; [by eapply unchanged_trans|].
  intros Hc. specialize (Hcalm1 Hc). subst s1. by apply Hcalm.
Qed.

Lemma spawn_worker_raises self task_def s :
  Orchestrator._spawn_worker self task_def s
  = (Raise (no_attribute "EventStoreV2" "create_worker"), s).
Proof. by destruct s. Qed.

Lemma print_lines ls s :
  ∃ units,
    for_each ls Orchestrator.print s
    = (Ok units, {| Orchestrator.store := Orchestrator.store s;
                    Orchestrator.batches := Orchestrator.batches s;
                    Orchestrator.console := Orchestrator.console s ++ ls |}).
Proof.
  revert s. induction ls as [|l ls IH]; intros s.
  - exists []. cbn. unfold ret. rewrite (right_id_L [] (++)). by destruct s.
  - destruct (IH {| Orchestrator.store := Orchestrator.store s;
                    Orchestrator.batches := Orchestrator.batches s;
                    Orchestrator.console := Orchestrator.console s ++ [l] |})
      as (units & Hunits).
    exists (tt :: units). cbn [for_each]. unfold bind at 1. cbn.
    unfold bind at 1. rewrite Hunits. cbn. by rewrite <- (assoc_L (++)).
Qed.

Lemma create_plan_raises self s :
  Orchestrator._create_plan self s
  = (Raise (if decide (concat (Orchestrator.batches s) = [])
            then no_attribute "EventStoreV2" "create_plan"
            else unexpected_keyword "Task.__init__" "dependencies"), s).
Proof.
  unfold Orchestrator._create_plan.
  erewrite bind_Ok; [|reflexivity].
  destruct (concat (Orchestrator.batches s)) as [|task_def rest].
  - by destruct s.
  - reflexivity.
Qed.

Lemma execute_raises self env s bs :
  _validate_dependencies (Orchestrator.task_defs self) = Ok tt →
  _resolve_dependencies (Orchestrator.task_defs self) = Some (Ok bs) →
  Orchestrator.execute self env s
  = (Raise (if decide (Orchestrator.task_defs self = [])
            then no_attribute "EventStoreV2" "create_plan"
            else unexpected_keyword "Task.__init__" "dependencies"),
     {| Orchestrator.store := Orchestrator.store s;
        Orchestrator.batches := bs;
        Orchestrator.console := Orchestrator.console s ++ Orchestrator.plan_lines bs |}).
Proof.
  intros Hvalid Hres. unfold Orchestrator.execute. rewrite Hvalid, Hres.
  erewrite bind_Ok; [|reflexivity].
  erewrite bind_Ok; [|reflexivity].
  erewrite bind_Ok; [|reflexivity].
  destruct (print_lines (Orchestrator.plan_lines bs)
              {| Orchestrator.store := Orchestrator.store s;
                 Orchestrator.batches := bs;
                 Orchestrator.console := Orchestrator.console s |})
    as (units & Hprint).
  erewrite bind_Ok; [|exact Hprint].
  erewrite bind_Raise; [|apply create_plan_raises].
  cbn [Orchestrator.batches Orchestrator.store Orchestrator.console].
  pose proof (resolve_ok_permutation _ _ Hres) as Hperm.
  do 2 f_equal.
  destruct (decide (concat bs = [])) as [Hnil|Hcons],
    (decide (Orchestrator.task_defs self = [])) as [Hnil'|Hcons']; try done.
  - exfalso. rewrite Hnil in Hperm. by apply Permutation_nil_l in Hperm.
  - exfalso. rewrite Hnil' in Hperm. by apply Permutation_nil_r in Hperm.
Qed.

(** [pathlib] drops the [.] of the current directory and does not double the
    slash of the root. *)
Example output_file_paths :
  Path.to_str (Path.truediv (Path.of_str ".") "output.txt") = "output.txt"
  ∧ Path.to_str (Path.truediv (Path.of_str "/") "output.txt") = "/output.txt"
  ∧ Path.to_str (Path.truediv (Path.of_str "/tmp/a/") "output.txt") = "/tmp/a/output.txt"
  ∧ Path.to_str (Path.truediv (Path.truediv (Orchestrator.run_dir two_batches) "workers")
                   "W-build")
    = "/home/user/project/.claude/runs/R1/workers/W-build".
Proof. repeat split; vm_compute; reflexivity. Qed.

(** *** Outcome of a command *)

(** C5 (the code departs from the claim). Neither the worker nor the
    orchestrator gets as far as reporting the outcome of a command.
    [Worker.__init__] raises [AttributeError] at [create_worker] and leaves the
    store as it was. [Worker.execute_command] raises at its first statement,
    which is outside its [try], whatever the subprocess would do, and
    [Orchestrator._execute_task] raises out of its [except Exception] handler:
    each raises from every state of the store and leaves the database as it
    was, and from a store at rest the exception is the [AttributeError] of
    [event_type.value] on a [str] and the store is left as it was. So for
    worker [W-a] of run [R1] on an empty database and a command exiting with
    code 0, [main] and [execute_command] raise and no row of the worker
    exists afterwards; likewise for task [build] of the orchestrator. *)
Theorem outcome_is_raised_not_reported :
  (∀ run worker task c,
     Worker.init run worker task c
     = (Raise (no_attribute "EventStoreV2" "create_worker"), c))
  ∧ (∀ self command working_dir timeout env c,
       ∃ e c', Worker.execute_command self command working_dir timeout env c
               = (Raise e, c')
               ∧ data c' = data c
               ∧ (calm c → e = no_attribute "str" "value" ∧ c' = c))
  ∧ (∀ self env task_def worker_id s,
       ∃ e s', Orchestrator._execute_task self env task_def worker_id s = (Raise e, s')
               ∧ Orchestrator.unchanged s s'
               ∧ (calm (Orchestrator.store s)
                  → e = no_attribute "str" "value" ∧ s' = s))
  ∧ Worker.main "R1" "W-a" "a" "true" (Path.of_str "/tmp/a") exit_zero
      (open_conn empty_db 0)
    = (Raise (AttributeError "'EventStoreV2' object has no attribute 'create_worker'"),
       open_conn empty_db 0)
  ∧ Worker.execute_command done_worker "true" (Path.of_str "/tmp/a") 300 exit_zero
      (open_conn empty_db 0)
    = (Raise (AttributeError "'str' object has no attribute 'value'"),
       open_conn empty_db 0)
  ∧ worker_state (open_conn empty_db 0) "W-a" = None
  ∧ Orchestrator._execute_task two_batches exit_zero (mk_task "build" []) "W-build"
      fresh_state
    = (Raise (AttributeError "'str' object has no attribute 'value'"), fresh_state).
Proof.
  split; [reflexivity|].
  split; [apply execute_command_raises|].
  split; [apply execute_task_raises|].
  repeat split; vm_compute; reflexivity.
Qed.

(** C10 (the code departs from the claim). The worker appends no event at
    all. [main] raises when it builds the worker and leaves the store as it
    was. [Worker.execute_command], whatever the subprocess does and whatever
    the state of the store, raises and leaves the events table as it was
    before the call. So for worker [W-a] of run [R1] on an empty database, a
    subprocess that completes, with exit code 0 or with exit code 1, is
    followed by no artifact event: the call raises the [AttributeError] of
    [event_type.value] on a [str] and the events table stays empty. *)
Theorem execute_command_appends_no_event :
  (∀ run worker task command working_dir env c,
     Worker.main run worker task command working_dir env c
     = (Raise (no_attribute "EventStoreV2" "create_worker"), c))
  ∧ (∀ self command working_dir timeout env c,
       let out := Worker.execute_command self command working_dir timeout env c in
       (∃ e, fst out = Raise e)
       ∧ events (data (snd out)) = events (data c)
       ∧ appended (data c) (data (snd out)) = [])
  ∧ (let out := Worker.execute_command done_worker "true" (Path.of_str "/tmp/a") 300
                  exit_zero (open_conn empty_db 0) in
     fst out = Raise (AttributeError "'str' object has no attribute 'value'")
     ∧ events (data (snd out)) = [])
  ∧ (let out := Worker.execute_command done_worker "false" (Path.of_str "/tmp/a") 300
                  exit_one (open_conn empty_db 0) in
     fst out = Raise (AttributeError "'str' object has no attribute 'value'")
     ∧ events (data (snd out)) = []).
Proof.
  split; [reflexivity|]. split.
  - intros self command working_dir timeout env c.
    destruct (execute_command_raises self command working_dir timeout env c)
      as (e & c' & -> & Hdata & _).
    cbn. rewrite Hdata. split; [by exists e|]. split; [done|].
    unfold appended. by rewrite drop_all.
  - repeat split; vm_compute; reflexivity.
Qed.

(** *** A failed task and the rest of the run *)

(** C8 (the code departs from the claim). [execute] never returns a result
    list. When validation passes and the resolver returns batches, it prints
    the plan and raises in [_create_plan], before any worker is spawned and
    any command is run: [TypeError] from the first [Task(...)] when there is
    a task, [AttributeError] from [create_plan] when there is none; the store
    is left as it was and no tally or summary line is printed. For the two
    batches of two tasks with [lint] failing, the run raises [TypeError]
    after printing the two plan lines, with an empty database: batch 1 is not
    executed, nor batch 2, and no report of 3 successes and 1 failure is
    made. *)
Theorem run_raises_before_first_batch :
  (∀ self env s, ∃ e s', Orchestrator.execute self env s = (Raise e, s'))
  ∧ (∀ self env s bs,
       _validate_dependencies (Orchestrator.task_defs self) = Ok tt →
       _resolve_dependencies (Orchestrator.task_defs self) = Some (Ok bs) →
       Orchestrator.execute self env s
       = (Raise (if decide (Orchestrator.task_defs self = [])
                 then no_attribute "EventStoreV2" "create_plan"
                 else unexpected_keyword "Task.__init__" "dependencies"),
          {| Orchestrator.store := Orchestrator.store s;
             Orchestrator.batches := bs;
             Orchestrator.console :=
               Orchestrator.console s ++ Orchestrator.plan_lines bs |}))
  ∧ Orchestrator.execute two_batches lint_fails fresh_state
    = (Raise (TypeError
                "Task.__init__() got an unexpected keyword argument 'dependencies'"),
       {| Orchestrator.store := open_conn empty_db 0;
          Orchestrator.batches :=
            [[mk_task "build" []; mk_task "lint" []];
             [mk_task "test" ["build"]; mk_task "docs" ["lint"]]];
          Orchestrator.console :=
            [Orchestrator.PlanBatch 1 2; Orchestrator.PlanBatch 2 2] |}).
Proof.
  split; [|split].
  - intros self env s.
    destruct (_validate_dependencies (Orchestrator.task_defs self)) as [[]|e] eqn:Hvalid.
    + destruct (resolve_total (Orchestrator.task_defs self)) as [[bs|e] Hres].
      * eexists _, _. by apply execute_raises.
      * exists e, s. unfold Orchestrator.execute. by rewrite Hvalid, Hres.
    + exists e, s. unfold Orchestrator.execute. by rewrite Hvalid.
  - apply execute_raises.
  - vm_compute. reflexivity.
Qed.

(** *** Concrete instances *)

Lemma cyclic_dependency_witness :
  _resolve_dependencies [mk_task "X" ["Y"]; mk_task "Y" ["X"]]
  = Some (Raise (ValueError circular_dependency_message)).
Proof.
  apply (cyclic_dependency_rejected [mk_task "X" ["Y"]; mk_task "Y" ["X"]]).
  exists "X". apply tc_l with "Y"; [|apply tc_once].
  - exists (mk_task "X" ["Y"]). split; [left|]. split; [reflexivity|left].
  - exists (mk_task "Y" ["X"]). split; [right; left|]. split; [reflexivity|left].
Defined.

Lemma unknown_dependency_witness :
  ∃ task dep,
    _validate_dependencies [mk_task "A" []; mk_task "B" ["ghost"]]
    = Raise (ValueError (unknown_dependency_message (name task) dep)).
Proof.
  destruct (unknown_dependency_rejected [mk_task "A" []; mk_task "B" ["ghost"]])
    as (task & dep & _ & _ & _ & Hraise & _).
  - exists (mk_task "B" ["ghost"]), "ghost". split; [right; left|]. split; [left|].
    intros task' Hin. repeat (apply elem_of_cons in Hin as [->|Hin]); [done|done|].
    by apply elem_of_nil in Hin.
  - exists task, dep. exact Hraise.
Defined.

Lemma transaction_witness :
  fst (update_worker_status "W-a" "R1" (Some WorkerState.BUSY) (Some 10) None None
         commit_fails)
  = Raise (OperationalError "database is locked")
  ∧ data (snd (update_worker_status "W-a" "R1" (Some WorkerState.BUSY) (Some 10) None None
                 commit_fails))
    = empty_db.
Proof.
  destruct (proj1 (transaction_all_or_nothing commit_fails eq_refl)
              "W-a" "R1" (Some WorkerState.BUSY) (Some 10) None None) as [_ Hdata].
  split; [vm_compute; reflexivity|]. exact Hdata.
Defined.

(** *** Further properties of the resolver *)

(** The loop of [_resolve_dependencies] always ends: it returns batches or
    raises, whatever the task list. *)
Theorem resolver_always_returns (task_defs : list TaskDefinition) :
  ∃ r, _resolve_dependencies task_defs = Some r.
Proof. destruct (resolve_total task_defs) as [r Hr]. by exists r. Qed.

(** A task list in which two tasks share a name never resolves: the loop
    condition compares the number of completed names with the number of
    tasks, so [_resolve_dependencies] raises the circular-dependency error
    even when no dependency is circular. *)
Theorem repeated_name_never_resolves (task_defs : list TaskDefinition) :
  ¬ distinct_names task_defs →
  _resolve_dependencies task_defs
  = Some (Raise (ValueError circular_dependency_message)).
Proof.
  intros Hdup. destruct (resolve_total task_defs) as [[bs|e] Hres].
  - exfalso. apply Hdup. by eapply resolve_ok_distinct.
  - rewrite Hres. by rewrite (resolve_loop_raise _ _ _ _ _ Hres).
Qed.

Lemma repeated_name_witness :
  _resolve_dependencies [mk_task "A" []; mk_task "A" []]
  = Some (Raise (ValueError circular_dependency_message)).
Proof.
  apply (repeated_name_never_resolves [mk_task "A" []; mk_task "A" []]).
  unfold distinct_names. intros Hnd. apply NoDup_cons in Hnd as [Hfresh _].
  apply Hfresh. left.
Defined.

Lemma resolve_ok_rounds task_defs bs :
  _resolve_dependencies task_defs = Some (Ok bs) → rounds task_defs ∅ bs.
Proof.
  intros Hres. apply resolve_loop_ok in Hres as (rest & Hbs & Hr & _).
  cbn [app] in Hbs. by subst.
Qed.

Lemma resolve_ok_valid task_defs bs :
  _resolve_dependencies task_defs = Some (Ok bs) → valid_dependencies task_defs.
Proof.
  intros Hres task dep Hin Hdep.
  pose proof (resolve_ok_rounds _ _ Hres) as Hr.
  pose proof (resolve_ok_permutation _ _ Hres) as Hperm.
  rewrite <- Hperm in Hin. apply elem_of_concat in Hin as (b & Hin & Hb).
  apply list_elem_of_lookup in Hb as [i Hi].
  destruct (rounds_dependencies_before _ _ _ _ _ _ Hr Hi Hin Hdep)
    as (j & b' & task' & _ & Hj & Hin' & Hname).
  exists task'. split; [|done]. rewrite <- Hperm. apply elem_of_concat.
  exists b'. split; [done|]. by eapply list_elem_of_lookup_2.
Qed.

(** [_resolve_dependencies] returns batches for exactly the task lists in
    which no two tasks share a name, every dependency is the name of a task of
    the list, and no task depends on itself through any chain of
    dependencies. For every other list it raises the circular-dependency
    error: called without the validation step, it answers an unknown
    dependency, like a repeated name, with that error. *)
Theorem resolver_accepts_exactly_well_formed (task_defs : list TaskDefinition) :
  ((∃ batches, _resolve_dependencies task_defs = Some (Ok batches))
   ↔ distinct_names task_defs ∧ valid_dependencies task_defs ∧ acyclic task_defs)
  ∧ ((∃ batches, _resolve_dependencies task_defs = Some (Ok batches))
     ∨ _resolve_dependencies task_defs
       = Some (Raise (ValueError circular_dependency_message))).
Proof.
  split; [|destruct (resolve_total task_defs) as [[bs|e] Hres];
            [left; by exists bs
            |right; rewrite Hres; by rewrite (resolve_loop_raise _ _ _ _ _ Hres)] ].
  split.
  - intros [bs Hres]. split; [by eapply resolve_ok_distinct|].
    split; [by eapply resolve_ok_valid|by eapply resolve_ok_acyclic].
  - intros (Hdist & Hvalid & Hacyc).
    apply (resolve_loop_progress (S (length task_defs)) task_defs ∅ []); [|lia].
    intros c. by apply acyclic_ready.
Qed.

Lemma rounds_nonempty task_defs completed bs :
  rounds task_defs completed bs → Forall (λ b, b ≠ []) bs.
Proof.
  revert completed. induction bs as [|b bs IH]; intros completed Hr; [constructor|].
  destruct Hr as (_ & Hne & _ & Hr). constructor; [done|by eapply IH].
Qed.

Lemma length_concat_nonempty {A} (ls : list (list A)) :
  Forall (λ l, l ≠ []) ls → (length ls ≤ length (concat ls))%nat.
Proof.
  induction 1 as [|l ls Hl _ IH]; [done|]. cbn. rewrite length_app.
  destruct l; [done|]. cbn. lia.
Qed.

(** When [_resolve_dependencies] returns batches, no batch is empty, so there
    are at most as many batches as tasks; and for a non-empty task list the
    first batch consists of exactly the tasks without dependencies, in the
    order of the list. *)
Theorem resolver_batches_nonempty (task_defs : list TaskDefinition)
    (batches : list (list TaskDefinition)) :
  _resolve_dependencies task_defs = Some (Ok batches) →
  Forall (λ batch, batch ≠ []) batches
  ∧ (length batches ≤ length task_defs)%nat
  ∧ (task_defs ≠ [] →
     head batches = Some (filter (λ task, dependencies task = []) task_defs)).
Proof.
  intros Hres. pose proof (resolve_ok_rounds _ _ Hres) as Hr.
  pose proof (rounds_nonempty _ _ _ Hr) as Hne.
  split; [done|]. split.
  - rewrite <- (Permutation_length (resolve_ok_permutation _ _ Hres)).
    by apply length_concat_nonempty.
  - intros Htasks. destruct batches as [|b bs].
    + apply resolve_ok_permutation in Hres. cbn in Hres.
      apply Permutation_nil_l in Hres. done.
    + cbn. f_equal. destruct Hr as (-> & _). unfold ready_tasks.
      apply list_filter_iff. intros task. unfold is_ready. split.
      * intros [_ Hall]. destruct (dependencies task) as [|dep deps]; [done|].
        apply Forall_cons in Hall as [Hdep _]. set_solver.
      * intros ->. split; [set_solver|constructor].
Qed.

Lemma resolver_batches_nonempty_witness :
  Forall (λ batch, batch ≠ [])
    [[mk_task "A" []]; [mk_task "B" ["A"]; mk_task "C" ["A"]]]
  ∧ (length [[mk_task "A" []]; [mk_task "B" ["A"]; mk_task "C" ["A"]]]
     ≤ length [mk_task "A" []; mk_task "B" ["A"]; mk_task "C" ["A"]])%nat.
Proof.
  destruct (resolver_batches_nonempty
              [mk_task "A" []; mk_task "B" ["A"]; mk_task "C" ["A"]]
              [[mk_task "A" []]; [mk_task "B" ["A"]; mk_task "C" ["A"]]])
    as (Hne & Hlen & _).
  - vm_compute. reflexivity.
  - split; [exact Hne|exact Hlen].
Defined.

Lemma validate_deps_first task_names task deps :
  match validate_deps task_names task deps with
  | Ok _ => Forall (λ dep, dep ∈ task_names) deps
  | Raise e =>
      ∃ known dep later,
        deps = known ++ dep :: later
        ∧ Forall (λ dep, dep ∈ task_names) known
        ∧ (dep ∉ task_names)
        ∧ e = ValueError (unknown_dependency_message task dep)
  end.
Proof.
  induction deps as [|dep deps IH]; cbn [validate_deps]; [constructor|].
  case_decide as Hin.
  - destruct (validate_deps task_names task deps).
    + by constructor.
    + destruct IH as (known & dep' & later & -> & ? & ? & ?).
      exists (dep :: known), dep', later. split; [done|]. split; [by constructor|done].
  - exists [], dep, deps. split; [done|]. split; [constructor|done].
Qed.

Lemma validate_tasks_first task_names tasks :
  match validate_tasks task_names tasks with
  | Ok _ => Forall (λ task, Forall (λ dep, dep ∈ task_names) (dependencies task)) tasks
  | Raise e =>
      ∃ before task after known dep later,
        tasks = before ++ task :: after
        ∧ dependencies task = known ++ dep :: later
        ∧ Forall (λ task, Forall (λ dep, dep ∈ task_names) (dependencies task)) before
        ∧ Forall (λ dep, dep ∈ task_names) known
        ∧ (dep ∉ task_names)
        ∧ e = ValueError (unknown_dependency_message (name task) dep)
  end.
Proof.
  induction tasks as [|task tasks IH]; cbn [validate_tasks]; [constructor|].
  pose proof (validate_deps_first task_names (name task) (dependencies task)) as Hd.
  destruct (validate_deps task_names (name task) (dependencies task)).
  - destruct (validate_tasks task_names tasks).
    + by constructor.
    + destruct IH as (before & task' & after & known & dep & later
                      & -> & ? & ? & ? & ? & ?).
      exists (task :: before), task', after, known, dep, later.
      split; [done|]. split; [done|]. split; [by constructor|done].
  - destruct Hd as (known & dep & later & ? & ? & ? & ?).
    exists [], task, tasks, known, dep, later. split; [done|]. split; [done|].
    split; [constructor|done].
Qed.

(** [_validate_dependencies] returns normally exactly when every dependency
    of every task is the name of a task of the list. Otherwise the error it
    raises names the first task of the list with an unknown dependency and the
    first unknown dependency of that task: every dependency of every earlier
    task, and every earlier dependency of that task, is known. *)
Theorem validation_reports_first_unknown_dependency (task_defs : list TaskDefinition) :
  match _validate_dependencies task_defs with
  | Ok _ => valid_dependencies task_defs
  | Raise e =>
      ∃ before task after known dep later,
        task_defs = before ++ task :: after
        ∧ dependencies task = known ++ dep :: later
        ∧ Forall (λ task', Forall (λ dep', dep' ∈ names_of task_defs) (dependencies task'))
            before
        ∧ Forall (λ dep', dep' ∈ names_of task_defs) known
        ∧ (dep ∉ names_of task_defs)
        ∧ e = ValueError (unknown_dependency_message (name task) dep)
        ∧ ¬ valid_dependencies task_defs
  end.
Proof.
  destruct (_validate_dependencies task_defs) as [u|e] eqn:Hv.
  - by eapply validate_ok_valid.
  - unfold _validate_dependencies in Hv.
    pose proof (validate_tasks_first (list_to_set (name <$> task_defs)) task_defs) as Hs.
    rewrite Hv in Hs.
    destruct Hs as (before & task & after & known & dep & later
                    & Htasks & Hdeps & Hbefore & Hknown & Hdep & ->).
    exists before, task, after, known, dep, later.
    repeat (split; [done|]). intros Hvalid. apply Hdep.
    apply (elem_of_names_of dep task_defs). apply (Hvalid task).
    + rewrite Htasks. apply elem_of_app. right. left.
    + rewrite Hdeps. apply elem_of_app. right. left.
Qed.

(** *** Further properties of the SQLite event store *)

Lemma get_events_calm r w t et limit offset c :
  calm c →
  get_events r w t et limit offset c
  = (Ok (sql_limit_offset limit offset
           (merge_sort newer (filter (event_selected r w t et) (events (data c))))), c).
Proof.
  destruct c as [d snap fs now off]. intros [Hs Hf]. cbn in Hs, Hf. subst.
  unfold get_events. run_monad. reflexivity.
Qed.

Lemma newer_total : Total newer.
Proof. intros a b. unfold newer. lia. Qed.

Lemma newer_trans : Transitive newer.
Proof. intros a b c. unfold newer. lia. Qed.

Lemma StronglySorted_filter {A} (R : relation A) (P : A → Prop)
    `{∀ x, Decision (P x)} (l : list A) :
  StronglySorted R l → StronglySorted R (filter P l).
Proof.
  induction 1 as [|x l Hl IH Hx]; [constructor|].
  rewrite filter_cons. case_decide; [|done].
  constructor; [done|]. rewrite Forall_forall in Hx |- *.
  intros y Hy. apply list_elem_of_filter in Hy as [_ Hy]. by apply Hx.
Qed.

Lemma StronglySorted_reverse {A} (R : relation A) (l : list A) :
  StronglySorted R l → StronglySorted (flip R) (reverse l).
Proof.
  induction 1 as [|x l Hl IH Hx]; [constructor|].
  rewrite reverse_cons. apply StronglySorted_app_2; [|done|by repeat constructor].
  intros a b Ha Hb. apply list_elem_of_singleton in Hb as ->.
  rewrite elem_of_reverse in Ha. rewrite Forall_forall in Hx. unfold flip. by apply Hx.
Qed.

Lemma StronglySorted_impl {A} (R R' : relation A) (l : list A) :
  (∀ a b, R a b → R' a b) → StronglySorted R l → StronglySorted R' l.
Proof.
  intros HR. induction 1 as [|x l Hl IH Hx]; constructor; [done|].
  eapply Forall_impl; [exact Hx|]. intros y. apply HR.
Qed.

Lemma chronological_newest_first d (P : event_row → Prop) `{∀ e, Decision (P e)} :
  chronological d →
  merge_sort newer (filter P (events d)) = reverse (filter P (events d)).
Proof.
  intros [Hs _].
  apply (StronglySorted_unique_strong newer).
  - intros a b Ha Hb Hab Hba.
    assert (ev_timestamp a = ev_timestamp b ∧ ev_id a = ev_id b) as [Hts Hid]
      by (unfold newer in *; lia).
    rewrite elem_of_reverse in Hb. apply list_elem_of_filter in Hb as [_ Hb].
    rewrite merge_sort_Permutation in Ha. apply list_elem_of_filter in Ha as [_ Ha].
    clear Hab Hba. induction Hs as [|x l Hl IH Hx]; [by apply elem_of_nil in Ha|].
    rewrite Forall_forall in Hx.
    apply elem_of_cons in Ha as [->|Ha]; apply elem_of_cons in Hb as [->|Hb];
      [done| | |by apply IH].
    + specialize (Hx _ Hb). lia.
    + specialize (Hx _ Ha). lia.
  - apply StronglySorted_merge_sort; [apply newer_trans|apply newer_total].
  - apply (StronglySorted_impl
             (flip (λ a b, ev_timestamp a ≤ ev_timestamp b ∧ ev_id a < ev_id b))).
    { intros a b. unfold flip, newer. lia. }
    by apply StronglySorted_reverse, StronglySorted_filter.
  - by rewrite merge_sort_Permutation, reverse_Permutation.
Qed.

(** On a store at rest whose events table was written under a clock that did
    not go backwards, [get_events] returns the selected events in the reverse
    of their insertion order, skips the first [offset] of them and stops after
    [limit]; it leaves the store as it was. Every returned event passes every
    filter given ([None] and the empty string are no filter); a non-negative
    [limit] bounds the number of events returned; a negative [limit] with no
    offset returns all selected events. *)
Theorem get_events_newest_first (c : conn) (run_id worker_id task_id : option string)
    (event_type : option EventType.t) (limit offset : Z) :
  calm c → chronological (data c) →
  ∃ rows,
    get_events run_id worker_id task_id event_type limit offset c = (Ok rows, c)
    ∧ rows = sql_limit_offset limit offset
               (reverse (filter (event_selected run_id worker_id task_id event_type)
                           (events (data c))))
    ∧ Forall (event_selected run_id worker_id task_id event_type) rows
    ∧ (0 ≤ limit → (length rows ≤ Z.to_nat limit)%nat)
    ∧ (limit < 0 → offset ≤ 0 →
       rows = reverse (filter (event_selected run_id worker_id task_id event_type)
                         (events (data c)))).
Proof.
  intros Hc Hchron. eexists. split; [by apply get_events_calm|].
  rewrite chronological_newest_first by done.
  split; [done|]. unfold sql_limit_offset. split; [|split].
  - case_decide; [|apply Forall_take]; apply Forall_drop, Forall_reverse;
      apply Forall_forall; intros e He; by apply list_elem_of_filter in He as [? _].
  - intros Hl. rewrite decide_False by lia. rewrite length_take. lia.
  - intros Hl Ho. rewrite decide_True by done.
    replace (Z.to_nat offset) with 0%nat by lia. done.
Qed.

Lemma get_events_newest_first_witness :
  ∃ rows,
    get_events (Some "R1") None None None 100 0 two_events = (Ok rows, two_events)
    ∧ (length rows ≤ 100)%nat.
Proof.
  destruct (get_events_newest_first two_events (Some "R1") None None None 100 0)
    as (rows & Hget & _ & _ & Hlen & _).
  - split; reflexivity.
  - split; vm_compute; repeat constructor; discriminate.
  - exists rows. split; [exact Hget|]. apply Hlen. lia.
Defined.

Lemma sql_limit_offset_cons {A} (limit offset : Z) (x : A) (l : list A) :
  (limit < 0 ∨ 0 < limit) → offset ≤ 0 →
  ∃ rest, sql_limit_offset limit offset (x :: l) = x :: rest.
Proof.
  intros Hl Ho. unfold sql_limit_offset.
  replace (Z.to_nat offset) with 0%nat by lia. cbn [drop].
  case_decide; [by eexists|].
  destruct (Z.to_nat limit) as [|n] eqn:Hn; [lia|]. by eexists.
Qed.

Lemma column_is_own (v : option string) : column_is v v.
Proof. destruct v as [s|]; [|done]. unfold column_is. by case_decide. Qed.

Lemma column_is_run (run : string) : column_is (Some run) (Some run).
Proof. apply (column_is_own (Some run)). Qed.

(** On a store at rest whose events table was written in order and holds no
    event stamped later than the clock, [append_event] returns an id greater
    than the id of every stored event, adds one row carrying that id, the
    clock's time and the arguments (an empty payload dictionary is stored as
    [NULL], like no payload), and keeps the table in order. A following
    [get_events], filtered on the values just written and asked for at least
    one event without offset, returns that row first. *)
Theorem appended_event_is_newest (c : conn) (event_type : EventType.t) (run_id : string)
    (worker_id task_id : option string) (p : option payload) (limit offset : Z) :
  calm c → chronological (data c) → written_by (clock c) (data c) →
  limit < 0 ∨ 0 < limit → offset ≤ 0 →
  let row := {| ev_id := events_seq (data c) + 1; ev_timestamp := clock c;
                ev_run_id := run_id; ev_worker_id := worker_id;
                ev_event_type := event_type; ev_task_id := task_id;
                ev_payload := match p with
                              | Some PEmpty | None => None
                              | Some p' => Some p'
                              end |} in
  ∃ c' rest,
    append_event event_type run_id worker_id task_id p c = (Ok (ev_id row), c')
    ∧ calm c' ∧ chronological (data c') ∧ written_by (clock c') (data c')
    ∧ events (data c') = events (data c) ++ [row]
    ∧ Forall (λ e, ev_id e < ev_id row) (events (data c))
    ∧ get_events (Some run_id) worker_id task_id (Some event_type) limit offset c'
      = (Ok (row :: rest), c').
Proof.
  intros Hc [Hsorted Hids] Hpast Hl Ho row. unfold written_by in Hpast.
  assert (events (event_effect event_type run_id worker_id task_id p (clock c) (data c))
          = events (data c) ++ [row]) as Hev.
  { rewrite events_event_effect. do 2 f_equal. unfold row. f_equal.
    by destruct p as [ [] |]. }
  assert (chronological
            (event_effect event_type run_id worker_id task_id p (clock c) (data c)))
    as Hchron.
  { split; rewrite Hev.
    - apply StronglySorted_app_2; [|done|by repeat constructor].
      intros a b Ha Hb. apply list_elem_of_singleton in Hb as ->. cbn.
      rewrite Forall_forall in Hids, Hpast. specialize (Hids a Ha).
      specialize (Hpast a Ha). lia.
    - apply Forall_app. split.
      + eapply Forall_impl; [exact Hids|]. intros e. cbn. lia.
      + repeat constructor. cbn. lia. }
  set (rows := reverse (filter (event_selected (Some run_id) worker_id task_id
                                  (Some event_type)) (events (data c)))).
  destruct (sql_limit_offset_cons limit offset row rows Hl Ho) as [rest Hrest].
  eexists _, rest. split; [by apply append_event_effect|].
  split; [by apply with_data_calm|]. split; [exact Hchron|].
  split.
  { unfold written_by. cbn [data with_data clock]. rewrite Hev. apply Forall_app.
    split; [done|]. repeat constructor. cbn. lia. }
  split; [exact Hev|]. split.
  { eapply Forall_impl; [exact Hids|]. intros e. cbn. lia. }
  rewrite get_events_calm by by apply with_data_calm.
  cbn [data with_data]. rewrite chronological_newest_first by done.
  rewrite Hev, filter_app, reverse_app, filter_cons, decide_True.
  - rewrite filter_nil. cbn [reverse app]. fold rows. by rewrite <- Hrest.
  - split; [apply column_is_run|]. split; [apply column_is_own|].
    split; [apply column_is_own|]. done.
Qed.

Lemma appended_event_is_newest_witness :
  ∃ c' rest,
    append_event EventType.HEARTBEAT "R1" (Some "W-a") (Some "a") (Some PEmpty)
      (open_conn empty_db 0)
    = (Ok 1, c')
    ∧ get_events (Some "R1") (Some "W-a") (Some "a") (Some EventType.HEARTBEAT) 1 0 c'
      = (Ok ({| ev_id := 1; ev_timestamp := 0; ev_run_id := "R1";
                ev_worker_id := Some "W-a"; ev_event_type := EventType.HEARTBEAT;
                ev_task_id := Some "a"; ev_payload := None |} :: rest), c').
Proof.
  destruct (appended_event_is_newest (open_conn empty_db 0) EventType.HEARTBEAT "R1"
              (Some "W-a") (Some "a") (Some PEmpty) 1 0)
    as (c' & rest & Happend & _ & _ & _ & _ & _ & Hget).
  - split; reflexivity.
  - split; constructor.
  - constructor.
  - right. lia.
  - lia.
  - exists c', rest. split; [exact Happend|exact Hget].
Defined.

Lemma get_worker_status_calm w c :
  calm c → get_worker_status w c = (Ok (workers (data c) !! w), c).
Proof.
  destruct c as [d snap fs now off]. intros [Hs Hf]. cbn in Hs, Hf. subst.
  unfold get_worker_status. run_monad. reflexivity.
Qed.

(** The row [update_worker_status] leaves for its worker. *)
Lemma upsert_worker_row w run state progress task message now m :
  upsert_worker w run state progress task message now m !! w
  = Some {| w_run_id := default run (w_run_id <$> m !! w);
            w_task_id := match task with
                         | Some t => Some t
                         | None => m !! w ≫= w_task_id
                         end;
            w_state := default (default WorkerState.IDLE (w_state <$> m !! w)) state;
            w_pid := m !! w ≫= w_pid;
            w_started_at := match m !! w with
                            | Some r => w_started_at r
                            | None => Some now
                            end;
            w_last_heartbeat := Some now;
            w_progress := default (default 0 (w_progress <$> m !! w)) progress;
            w_last_message := match message with
                              | Some msg => Some msg
                              | None => m !! w ≫= w_last_message
                              end |}.
Proof.
  unfold upsert_worker. destruct (m !! w) as [r|] eqn:Hr.
  - rewrite lookup_alter, Hr, decide_True by done. cbn. unfold updated_worker.
    by destruct state, progress.
  - rewrite lookup_insert, decide_True by done. cbn.
    by destruct task, state, progress, message.
Qed.

(** On a store at rest, [update_worker_status] returns normally, and
    [get_worker_status] then returns the worker's row: the heartbeat is the
    time of the call; state, progress, task and message are the values given,
    and where none is given the stored value of an existing row is kept and a
    new row gets [idle], 0 and [NULL]; an existing row keeps its run id and its
    start time whatever [run_id] is passed. The rows of all other workers, for
    which [get_worker_status] returns what it returned before ([None] for an
    unknown worker), and the events, tasks, blocks and plans are untouched. *)
Theorem worker_status_round_trip (c : conn) (worker_id run_id : string)
    (state : option WorkerState.t) (progress : option Z)
    (task_id message : option string) :
  calm c →
  let old := workers (data c) !! worker_id in
  let row :=
    {| w_run_id := default run_id (w_run_id <$> old);
       w_task_id := match task_id with Some t => Some t | None => old ≫= w_task_id end;
       w_state := default (default WorkerState.IDLE (w_state <$> old)) state;
       w_pid := old ≫= w_pid;
       w_started_at := match old with
                       | Some r => w_started_at r
                       | None => Some (clock c)
                       end;
       w_last_heartbeat := Some (clock c);
       w_progress := default (default 0 (w_progress <$> old)) progress;
       w_last_message := match message with
                         | Some m => Some m
                         | None => old ≫= w_last_message
                         end |} in
  ∃ c',
    update_worker_status worker_id run_id state progress task_id message c = (Ok tt, c')
    ∧ calm c'
    ∧ get_worker_status worker_id c' = (Ok (Some row), c')
    ∧ (∀ other, other ≠ worker_id →
         get_worker_status other c' = (Ok (workers (data c) !! other), c'))
    ∧ events (data c') = events (data c)
    ∧ tasks (data c') = tasks (data c)
    ∧ blocks (data c') = blocks (data c)
    ∧ plans (data c') = plans (data c).
Proof.
  intros Hc old row. eexists. split; [by apply update_worker_status_calm|].
  assert (calm (with_data
                  (set_workers (upsert_worker worker_id run_id state progress task_id
                                  message (clock c)) (data c)) c)) as Hc'
    by by apply with_data_calm.
  split; [done|]. split; [|split; [|done] ].
  - rewrite get_worker_status_calm by done. do 2 f_equal. cbn.
    apply upsert_worker_row.
  - intros other Hne. rewrite get_worker_status_calm by done. do 2 f_equal. cbn.
    by apply upsert_worker_lookup_ne.
Qed.

Lemma worker_status_round_trip_witness :
  ∃ c' row,
    update_worker_status "W-a" "R2" None (Some 50) None None
      (set_clock 5 after_report_done)
    = (Ok tt, c')
    ∧ get_worker_status "W-a" c' = (Ok (Some row), c')
    ∧ w_run_id row = "R1" ∧ w_state row = WorkerState.DONE
    ∧ w_progress row = 50 ∧ w_last_heartbeat row = Some 5.
Proof.
  destruct (worker_status_round_trip (set_clock 5 after_report_done) "W-a" "R2"
              None (Some 50) None None)
    as (c' & Hupdate & _ & Hget & _).
  - split; reflexivity.
  - eexists c', _. split; [exact Hupdate|]. split; [exact Hget|].
    repeat split; vm_compute; reflexivity.
Defined.

Lemma detect_dead_workers_calm timeout c :
  calm c →
  detect_dead_workers timeout c
  = (Ok (fst (sql_select_dead_workers timeout (clock c) (data c))), c).
Proof.
  destruct c as [d snap fs now off]. intros [Hs Hf]. cbn in Hs, Hf. subst.
  unfold detect_dead_workers. run_monad. reflexivity.
Qed.

Lemma elem_of_dead_workers timeout c w :
  calm c → 0 ≤ timeout →
  w ∈ dead_workers timeout c
  ↔ ∃ row, workers (data c) !! w = Some row ∧ silent_since (clock c - timeout) row.
Proof.
  intros Hc Ht. unfold dead_workers. rewrite detect_dead_workers_calm by done.
  cbn. rewrite decide_False by lia.
  rewrite elem_of_list_to_set, list_elem_of_fmap. split.
  - intros ([w' row] & -> & Hin). apply elem_of_map_to_list in Hin.
    apply map_lookup_filter_Some in Hin as [Hrow Hsilent]. by exists row.
  - intros (row & Hrow & Hsilent). exists (w, row). split; [done|].
    apply elem_of_map_to_list. by apply map_lookup_filter_Some.
Qed.

(** [detect_dead_workers(timeout_seconds)], for a timeout that is not
    negative, after a call of [update_worker_status] for a worker made at time
    [t] on a store at rest: at a later time [now] the worker is listed exactly
    when the state the call left is busy or blocked and more than
    [timeout_seconds] have passed since [t]. Of all the workers only those
    whose state is busy or blocked are listed (never an idle, done, error or
    dead one), and the call changes nothing: no worker is marked dead. *)
Theorem heartbeat_keeps_worker_alive (c : conn) (worker_id run_id : string)
    (state : option WorkerState.t) (progress : option Z)
    (task_id message : option string) (timeout_seconds now : Z) :
  calm c → 0 ≤ timeout_seconds →
  let c' := set_clock now
              (snd (update_worker_status worker_id run_id state progress task_id
                      message c)) in
  (worker_id ∈ dead_workers timeout_seconds c'
   ↔ (worker_state c' worker_id = Some WorkerState.BUSY
      ∨ worker_state c' worker_id = Some WorkerState.BLOCKED)
     ∧ clock c + timeout_seconds < now)
  ∧ (∀ other, other ∈ dead_workers timeout_seconds c' →
       worker_state c' other = Some WorkerState.BUSY
       ∨ worker_state c' other = Some WorkerState.BLOCKED)
  ∧ detect_dead_workers timeout_seconds c'
    = (Ok (fst (sql_select_dead_workers timeout_seconds now (data c'))), c').
Proof.
  intros Hc Ht c'.
  assert (calm c') as Hc'.
  { unfold c'. rewrite update_worker_status_calm by done.
    by apply set_clock_calm, with_data_calm. }
  assert (workers (data c') !! worker_id
          = upsert_worker worker_id run_id state progress task_id message (clock c)
              (workers (data c)) !! worker_id) as Hrow.
  { unfold c'. by rewrite update_worker_status_calm. }
  rewrite upsert_worker_row in Hrow.
  split; [|split].
  - rewrite elem_of_dead_workers by done. unfold worker_state. rewrite Hrow. cbn.
    unfold silent_since. cbn. split.
    + intros (row & [= <-] & Hst & Hhb). cbn in Hst, Hhb. split; [|lia].
      destruct Hst as [-> | ->]; eauto.
    + intros [Hst Hlate]. eexists. split; [done|]. cbn. split; [|lia].
      destruct Hst as [ [= ->] | [= ->] ]; eauto.
  - intros other. rewrite elem_of_dead_workers by done. unfold worker_state.
    intros (row & -> & [Hst _]). cbn. destruct Hst as [-> | ->]; eauto.
  - by rewrite detect_dead_workers_calm.
Qed.

Lemma heartbeat_keeps_worker_alive_witness :
  "W-a" ∈ dead_workers 60
            (set_clock 100
               (snd (update_worker_status "W-a" "R1" (Some WorkerState.BUSY) None None
                       None (open_conn empty_db 0)))).
Proof.
  destruct (heartbeat_keeps_worker_alive (open_conn empty_db 0) "W-a" "R1"
              (Some WorkerState.BUSY) None None None 60 100)
    as (Hlisted & _ & _).
  - split; reflexivity.
  - lia.
  - apply Hlisted. split; [left; vm_compute; reflexivity|cbn; lia].
Defined.

Lemma latest_block_elem_of rows r : latest_block rows = Some r → r ∈ rows.
Proof.
  unfold latest_block. induction rows as [|x rows IH] using rev_ind; [done|].
  rewrite foldl_app. cbn. rewrite elem_of_app, list_elem_of_singleton.
  destruct (foldl later_block None rows) as [a|]; cbn.
  - case_decide; intros [= <-]; [by right|left; by apply IH].
  - intros [= <-]. by right.
Qed.

Lemma latest_block_snoc rows r :
  Forall (λ a, b_created_at a < b_created_at r) rows →
  latest_block (rows ++ [r]) = Some r.
Proof.
  intros Hall. unfold latest_block. rewrite foldl_app. cbn.
  destruct (foldl later_block None rows) as [a|] eqn:Ha; [|done]. cbn.
  apply latest_block_elem_of in Ha. rewrite Forall_forall in Hall.
  by rewrite decide_True by by apply Hall.
Qed.

Lemma next_retry_count_new_block rows w h id expires reason n maxr now :
  Forall (λ r, block_matches w h r → b_created_at r < now) rows →
  next_retry_count (rows ++ [new_block id w h expires reason n maxr now]) w h = n + 1.
Proof.
  intros Hall. unfold next_retry_count.
  rewrite filter_app, filter_cons, decide_True by done. rewrite filter_nil.
  rewrite latest_block_snoc; [done|].
  apply Forall_forall. intros a Ha. apply list_elem_of_filter in Ha as [Hm Ha].
  rewrite Forall_forall in Hall. by apply Hall.
Qed.

Lemma repeated_create_block_from w h reason dur maxr times c n :
  calm c → next_retry_count (blocks (data c)) w h = n →
  StronglySorted Z.lt times →
  Forall (λ now, Forall (λ r, block_matches w h r → b_created_at r < now)
                   (blocks (data c))) times →
  repeated_create_block w h reason dur maxr times c
  = (λ k, Ok (bool_decide (n + Z.of_nat k < maxr))) <$> seq 0 (length times).
Proof.
  revert c n. induction times as [|now times IH]; intros c n Hc Hn Hs Hpast; [done|].
  apply StronglySorted_inv in Hs as [Hs Hlater].
  apply Forall_cons in Hpast as [Hnow Hpast].
  cbn [repeated_create_block length seq fmap list_fmap].
  rewrite create_block_calm by by apply set_clock_calm.
  cbn [data set_clock clock]. rewrite Hn.
  replace (n + Z.of_nat 0) with n by lia.
  case_decide as Hmax.
  - rewrite bool_decide_false by lia. cbn [fst snd]. f_equal.
    rewrite (IH _ n); [|by apply set_clock_calm|done|done|done].
    rewrite <- (fmap_S_seq 0), <- list_fmap_compose. apply list_fmap_ext.
    intros i k _. cbn. rewrite !bool_decide_false by lia. done.
  - rewrite bool_decide_true by lia. cbn [fst snd]. f_equal.
    rewrite (IH _ (n + 1)).
    + rewrite <- (fmap_S_seq 0), <- list_fmap_compose. apply list_fmap_ext.
      intros i k _. cbn. do 2 f_equal. apply bool_decide_ext. lia.
    + by apply with_data_calm, set_clock_calm.
    + cbn. rewrite Hn. by apply next_retry_count_new_block.
    + done.
    + cbn. rewrite Forall_forall in Hlater, Hpast |- *. intros later Hin.
      apply Forall_app. split; [by apply Hpast|].
      repeat constructor. cbn. intros _. by apply Hlater.
Qed.

(** Starting from a store at rest that holds no block of the pair
    [(worker_id, hook_event)], successive calls of [create_block] with the
    same [max_retries], made at strictly increasing times and with no purge in
    between, are accepted exactly [max_retries] times: the call of index [k]
    (from 0) returns [True] when [k < max_retries] and [False] otherwise, and
    none raises. With [max_retries] at most 0 no call is accepted. *)
Theorem create_block_accepts_max_retries_calls (c : conn)
    (worker_id hook_event reason : string) (duration_seconds max_retries : Z)
    (times : list Z) :
  calm c →
  filter (block_matches worker_id hook_event) (blocks (data c)) = [] →
  StronglySorted Z.lt times →
  repeated_create_block worker_id hook_event reason duration_seconds max_retries times c
  = (λ k, Ok (bool_decide (Z.of_nat k < max_retries))) <$> seq 0 (length times).
Proof.
  intros Hc Hnone Hs.
  rewrite (repeated_create_block_from _ _ _ _ _ _ _ 0); [done|done| |done|].
  - unfold next_retry_count. by rewrite Hnone.
  - apply Forall_forall. intros now _. apply Forall_forall. intros r Hr Hm.
    assert (r ∈ filter (block_matches worker_id hook_event) (blocks (data c))) as Hin
      by by apply list_elem_of_filter.
    rewrite Hnone in Hin. by apply elem_of_nil in Hin.
Qed.

Lemma create_block_accepts_max_retries_calls_witness :
  repeated_create_block "W-a" "Stop" "workers running" 5 3 [0; 1; 2; 3; 4]
    (open_conn empty_db 0)
  = [Ok true; Ok true; Ok true; Ok false; Ok false].
Proof.
  apply (create_block_accepts_max_retries_calls (open_conn empty_db 0) "W-a" "Stop"
           "workers running" 5 3 [0; 1; 2; 3; 4]).
  - split; reflexivity.
  - reflexivity.
  - repeat constructor; lia.
Defined.

Lemma filter_none {A} (P : A → Prop) `{∀ x, Decision (P x)} (l : list A) :
  Forall (λ x, ¬ P x) l → filter P l = [].
Proof.
  induction 1 as [|x l Hx _ IH]; [done|]. by rewrite filter_cons, decide_False.
Qed.

(** [get_active_blocks] deletes the expired blocks, and [create_block] counts
    retries on the rows it finds. So once every block of a pair
    [(worker_id, hook_event)] has expired, a call of [get_active_blocks]
    (with any filter) on a store at rest leaves no block of the pair, and the
    next [create_block] for the pair with a positive [max_retries] is accepted
    with retry count 0, however many retries had been counted before. *)
Theorem purge_resets_retry_count (c : conn) (worker_id hook_event reason : string)
    (duration_seconds max_retries now : Z) (hook : option string) :
  calm c →
  Forall (λ r, block_matches worker_id hook_event r → b_expires_at r < now)
    (blocks (data c)) →
  0 < max_retries →
  ∃ rows c1 c2,
    get_active_blocks hook (set_clock now c) = (Ok rows, c1)
    ∧ Forall (λ r, ¬ block_matches worker_id hook_event r) (blocks (data c1))
    ∧ create_block worker_id hook_event reason duration_seconds max_retries c1
      = (Ok true, c2)
    ∧ blocks (data c2)
      = blocks (data c1)
        ++ [new_block (blocks_seq (data c) + 1) worker_id hook_event
              (now + utc_offset c + duration_seconds) reason 0 max_retries now].
Proof.
  intros Hc Hexp Hmax.
  pose proof (set_clock_calm now c Hc) as Hc0.
  assert (Forall (λ r, ¬ block_matches worker_id hook_event r)
            (filter (λ r, ¬ b_expires_at r < now) (blocks (data c)))) as Hnone.
  { apply Forall_forall. intros r Hr Hm. apply list_elem_of_filter in Hr as [Hlive Hr].
    rewrite Forall_forall in Hexp. by apply Hlive, Hexp. }
  assert (next_retry_count (filter (λ r, ¬ b_expires_at r < now) (blocks (data c)))
            worker_id hook_event = 0) as Hcount.
  { unfold next_retry_count.
    replace (filter (block_matches worker_id hook_event)
               (filter (λ r, ¬ b_expires_at r < now) (blocks (data c))))
      with (@nil block_row); [done|].
    symmetry. by apply filter_none. }
  eexists _, _, _. split; [by apply get_active_blocks_calm|].
  cbn [data with_data set_clock clock utc_offset blocks set_blocks].
  split; [done|].
  rewrite create_block_calm by by apply with_data_calm.
  cbn [data with_data set_clock clock utc_offset blocks set_blocks].
  rewrite Hcount, decide_False by lia. split; [reflexivity|].
  cbn. by rewrite Hcount.
Qed.

Lemma purge_resets_retry_count_witness :
  fst (create_block "W-a" "Stop" "again" 5 3 (set_clock 100 three_blocks)) = Ok false
  ∧ ∃ rows c1 c2,
      get_active_blocks None (set_clock 100 three_blocks) = (Ok rows, c1)
      ∧ create_block "W-a" "Stop" "again" 5 3 c1 = (Ok true, c2).
Proof.
  split; [vm_compute; reflexivity|].
  destruct (purge_resets_retry_count three_blocks "W-a" "Stop" "again" 5 3 100 None)
    as (rows & c1 & c2 & Hget & _ & Hcreate & _).
  - split; reflexivity.
  - vm_compute. repeat constructor.
  - lia.
  - exists rows, c1, c2. split; [exact Hget|exact Hcreate].
Defined.

(** Outside any open transaction, and whichever statements fail,
    [append_event] either returns the next id of the events table with the
    event inserted, or raises with the database as it was before the call; in
    both cases no transaction is left open. *)
Theorem append_event_all_or_nothing (c : conn) (event_type : EventType.t)
    (run_id : string) (worker_id task_id : option string) (p : option payload) :
  snapshot c = None →
  let out := append_event event_type run_id worker_id task_id p c in
  snapshot (snd out) = None
  ∧ match fst out with
    | Ok id =>
        id = events_seq (data c) + 1
        ∧ data (snd out)
          = event_effect event_type run_id worker_id task_id p (clock c) (data c)
    | Raise _ => data (snd out) = data c
    end.
Proof.
  destruct c as [d snap fs now off]. cbn. intros ->.
  unfold append_event, event_effect. run_monad.
  repeat (progress (split_faults; cbn)); done.
Qed.

Lemma append_event_all_or_nothing_witness :
  fst (append_event EventType.START "R1" None None None
         (set_faults [false; false; true] (open_conn empty_db 0)))
  = Raise (OperationalError "database is locked")
  ∧ data (snd (append_event EventType.START "R1" None None None
                 (set_faults [false; false; true] (open_conn empty_db 0))))
    = empty_db.
Proof.
  destruct (append_event_all_or_nothing
              (set_faults [false; false; true] (open_conn empty_db 0))
              EventType.START "R1" None None None eq_refl) as [_ Hdata].
  split; [vm_compute; reflexivity|]. exact Hdata.
Defined.

(** [get_active_blocks] runs its two statements outside a transaction. When
    the [DELETE] succeeds and the [SELECT] fails, the call raises and the
    expired blocks stay deleted: the purge is not undone. *)
Theorem purge_outlives_failed_select (c : conn) (hook : option string) (fs : list bool) :
  snapshot c = None → faults c = false :: true :: fs →
  ∃ e c', get_active_blocks hook c = (Raise e, c')
          ∧ snapshot c' = None
          ∧ blocks (data c') = filter (λ r, ¬ b_expires_at r < clock c) (blocks (data c)).
Proof.
  destruct c as [d snap fs' now]. cbn. intros -> ->.
  unfold get_active_blocks. run_monad. eexists _, _. done.
Qed.

Lemma purge_outlives_failed_select_witness :
  ∃ e c',
    get_active_blocks None (set_faults [false; true] (set_clock 100 three_blocks))
    = (Raise e, c')
    ∧ blocks (data c') = [].
Proof.
  destruct (purge_outlives_failed_select
              (set_faults [false; true] (set_clock 100 three_blocks)) None []
              eq_refl eq_refl)
    as (e & c' & Hget & _ & Hblocks).
  exists e, c'. split; [exact Hget|]. rewrite Hblocks. vm_compute. reflexivity.
Defined.

(** *** Further properties of the JSON-lines event store *)

Module V1Log.
Import V1 V1Facts.

Lemma omap_sublist {A B} (f g : A → option B) (l : list A) :
  (∀ x y, x ∈ l → f x = Some y → g x = Some y) → sublist (omap f l) (omap g l).
Proof.
  induction l as [|x l IH]; intros Hfg; [constructor|]. cbn.
  assert (sublist (omap f l) (omap g l)) as Hl.
  { apply IH. intros x' y Hin. apply Hfg. by right. }
  destruct (f x) as [y|] eqn:Hf.
  - rewrite (Hfg x y) by (done || left). by apply sublist_skip.
  - destruct (g x); [by apply sublist_cons|done].
Qed.

Lemma apply_to_worker_done event x :
  ws_state (apply_to_worker event x) = "done" → t event = DONE ∨ ws_state x = "done".
Proof.
  unfold apply_to_worker.
  destruct (t event); cbn; repeat (case_match; cbn); by eauto.
Qed.

Lemma done_state_has_done_event events v k :
  ws_state <$> lookup_worker k (workers_map (foldl apply_event v events)) = Some "done" →
  ws_state <$> lookup_worker k (workers_map v) = Some "done"
  ∨ ∃ e, e ∈ events ∧ t e = DONE ∧ nonempty (w e) = Some k.
Proof.
  revert v. induction events as [|e events IH]; intros v Hdone; [by left|].
  cbn [foldl] in Hdone. apply IH in Hdone as [Hdone|(e' & Hin & ?)].
  - rewrite apply_event_lookup in Hdone. case_decide as Hw; [|by left].
    cbn in Hdone. injection Hdone as Hdone.
    apply apply_to_worker_done in Hdone as [Ht|Hst].
    + right. exists e. split; [left|done].
    + left. destruct (lookup_worker k (workers_map v)); cbn in *; [by rewrite Hst|done].
  - right. exists e'. split; [by right|done].
Qed.

Lemma lookup_worker_seen events v k e :
  e ∈ events → nonempty (w e) = Some k →
  is_Some (lookup_worker k (workers_map (foldl apply_event v events))).
Proof.
  intros Hin Hw.
  assert (∀ es v, is_Some (lookup_worker k (workers_map v)) →
                  is_Some (lookup_worker k (workers_map (foldl apply_event v es)))) as Hkeep.
  { intros es. induction es as [|e' es IH]; intros v' Hv; [done|]. cbn. apply IH.
    rewrite apply_event_lookup. case_decide; [done|done]. }
  revert v. induction events as [|e' events IH]; intros v; [by apply elem_of_nil in Hin|].
  cbn. apply elem_of_cons in Hin as [<-|Hin]; [|by apply IH].
  apply Hkeep. rewrite apply_event_lookup. by rewrite decide_True.
Qed.

Lemma lookup_worker_elem_of k m x :
  lookup_worker k m = Some x → x ∈ snd <$> m.
Proof.
  induction m as [|[k' x'] m IH]; [done|]. cbn. case_decide.
  - intros [= ->]. left.
  - intros Hx. right. by apply IH.
Qed.

Lemma all_done_has_done_event run_id events e k :
  is_all_workers_done run_id events = true →
  e ∈ events → nonempty (w e) = Some k →
  ∃ e', e' ∈ events ∧ t e' = DONE ∧ nonempty (w e') = Some k.
Proof.
  intros Hall Hin Hw. unfold is_all_workers_done, compute_status in Hall.
  cbn [st_workers] in Hall. rewrite forallb_forall in Hall.
  destruct (lookup_worker_seen events initial_vars k e Hin Hw) as [x Hx].
  fold initial_vars in Hall.
  pose proof (lookup_worker_elem_of _ _ _ Hx) as Hx'.
  apply list_elem_of_In, Hall, bool_decide_eq_true in Hx'.
  destruct (done_state_has_done_event events initial_vars k) as [Hinit|Hev]; [|done|done].
  by rewrite Hx; cbn; rewrite Hx'.
Qed.

Lemma tasks_done_apply_event v e tk :
  tk ∈ tasks_done (apply_event v e) ↔ tk ∈ tasks_done v ∨ reports DONE tk e.
Proof.
  unfold apply_event, reports.
  destruct (nonempty (w e)) as [k|] eqn:Hw.
  - destruct (t e) eqn:Ht, (nonempty (task e)) as [tk'|] eqn:Htk; cbn;
      try rewrite elem_of_union, elem_of_singleton; naive_solver.
  - split; [by left|]. intros [?|(_ & [? ?] & _)]; done.
Qed.

Lemma tasks_pending_apply_event v e tk :
  tk ∈ tasks_pending (apply_event v e)
  ↔ (tk ∈ tasks_pending v ∧ ¬ reports DONE tk e) ∨ reports START tk e.
Proof.
  unfold apply_event, reports.
  destruct (nonempty (w e)) as [k|] eqn:Hw.
  - destruct (t e) eqn:Ht, (nonempty (task e)) as [tk'|] eqn:Htk; cbn;
      try rewrite elem_of_union, elem_of_singleton;
      try rewrite elem_of_difference, elem_of_singleton; naive_solver.
  - split; [left; split; [done|]|]; [intros (_ & [? ?] & _); done|].
    intros [ [? _]|(_ & [? ?] & _)]; done.
Qed.

Lemma tasks_done_foldl events v tk :
  tk ∈ tasks_done (foldl apply_event v events)
  ↔ tk ∈ tasks_done v ∨ ∃ e, e ∈ events ∧ reports DONE tk e.
Proof.
  revert v. induction events as [|e events IH]; intros v; cbn [foldl].
  - split; [by left|]. intros [?|(e & Hin & _)]; [done|by apply elem_of_nil in Hin].
  - rewrite IH, tasks_done_apply_event. setoid_rewrite elem_of_cons. naive_solver.
Qed.

Lemma tasks_pending_foldl_started events v tk :
  tk ∈ tasks_pending (foldl apply_event v events) →
  tk ∈ tasks_pending v ∨ ∃ e, e ∈ events ∧ reports START tk e.
Proof.
  revert v. induction events as [|e events IH]; intros v; cbn [foldl]; [by left|].
  intros Hin. apply IH in Hin as [Hin|(e' & Hin & ?)].
  - apply tasks_pending_apply_event in Hin as [ [? _]|?]; [by left|].
    right. exists e. split; [left|done].
  - right. exists e'. split; [by right|done].
Qed.

Lemma tasks_pending_foldl_kept events v tk :
  tk ∈ tasks_pending v ∨ (∃ e, e ∈ events ∧ reports START tk e) →
  ¬ (∃ e, e ∈ events ∧ reports DONE tk e) →
  tk ∈ tasks_pending (foldl apply_event v events).
Proof.
  revert v. induction events as [|e events IH]; intros v Hstart Hdone; cbn [foldl].
  - destruct Hstart as [?|(e & Hin & _)]; [done|by apply elem_of_nil in Hin].
  - apply IH.
    + assert (¬ reports DONE tk e) as Hnot.
      { intros ?. apply Hdone. exists e. split; [left|done]. }
      destruct Hstart as [Hv|(e' & Hin & He')].
      * left. apply tasks_pending_apply_event. by left.
      * apply elem_of_cons in Hin as [->|Hin].
        -- left. apply tasks_pending_apply_event. by right.
        -- right. by exists e'.
    + intros (e' & Hin & ?). apply Hdone. exists e'. split; [by right|done].
Qed.

Lemma lookup_worker_None k m : lookup_worker k m = None ↔ k ∉ fst <$> m.
Proof.
  induction m as [|[k' x] m IH]; cbn.
  - split; [intros _ Hin; by apply elem_of_nil in Hin|done].
  - rewrite not_elem_of_cons. case_decide; [naive_solver|]. rewrite IH. naive_solver.
Qed.

Lemma keys_alter_worker f k m : fst <$> alter_worker f k m = fst <$> m.
Proof.
  unfold alter_worker. rewrite <- list_fmap_compose. apply list_fmap_ext.
  intros i [k' x] _. cbn. by case_decide.
Qed.

Lemma keys_apply_event v e :
  fst <$> workers_map (apply_event v e)
  = (fst <$> workers_map v)
    ++ match nonempty (w e) with
       | Some k => if decide (k ∈ fst <$> workers_map v) then [] else [k]
       | None => []
       end.
Proof.
  unfold apply_event. destruct (nonempty (w e)) as [k|]; [|by rewrite app_nil_r].
  assert (fst <$> alter_worker (apply_to_worker e) k
                    (ensure_worker k (task e) (workers_map v))
          = (fst <$> workers_map v)
            ++ (if decide (k ∈ fst <$> workers_map v) then [] else [k])) as Hkeys.
  { rewrite keys_alter_worker. unfold ensure_worker.
    destruct (lookup_worker k (workers_map v)) eqn:Hl.
    - rewrite decide_True; [by rewrite app_nil_r|].
      destruct (decide (k ∈ fst <$> workers_map v)) as [|Hn]; [done|].
      apply lookup_worker_None in Hn. congruence.
    - apply lookup_worker_None in Hl. rewrite decide_False by done.
      by rewrite fmap_app. }
  destruct (t e), (nonempty (task e)); exact Hkeys.
Qed.

Lemma keys_foldl events v :
  NoDup (fst <$> workers_map v) →
  NoDup (fst <$> workers_map (foldl apply_event v events))
  ∧ (fst <$> workers_map v) `prefix_of` (fst <$> workers_map (foldl apply_event v events))
  ∧ ∀ k, k ∈ fst <$> workers_map (foldl apply_event v events)
         ↔ k ∈ fst <$> workers_map v ∨ ∃ e, e ∈ events ∧ nonempty (w e) = Some k.
Proof.
  revert v. induction events as [|e events IH]; intros v Hnd; cbn [foldl].
  - split; [done|]. split; [done|]. intros k. split; [by left|].
    intros [?|(e & Hin & _)]; [done|by apply elem_of_nil in Hin].
  - assert (NoDup (fst <$> workers_map (apply_event v e))) as Hnd'.
    { rewrite keys_apply_event. destruct (nonempty (w e)) as [k|]; [|by rewrite app_nil_r].
      case_decide; [by rewrite app_nil_r|].
      apply NoDup_app. split; [done|]. split; [|apply NoDup_singleton].
      intros x Hx Hk. apply list_elem_of_singleton in Hk as ->. done. }
    destruct (IH _ Hnd') as (Hnd'' & Hpre & Hmem). split; [done|]. split.
    + etrans; [|exact Hpre]. rewrite keys_apply_event. by apply prefix_app_r.
    + intros k. rewrite Hmem, keys_apply_event, elem_of_app.
      setoid_rewrite elem_of_cons. split.
      * intros [ [?|Hk]|(e' & ? & ?)]; [by left| |by eauto].
        right. exists e. split; [by left|].
        destruct (nonempty (w e)) as [k'|]; [|by apply elem_of_nil in Hk].
        case_decide; [by apply elem_of_nil in Hk|].
        by apply list_elem_of_singleton in Hk as ->.
      * intros [?|(e' & [->|?] & Hw)]; [by left;left| |by eauto].
        left. rewrite Hw. case_decide; [by left|right; left].
Qed.

Lemma ids_keyed m : keyed m → ws_id <$> (snd <$> m) = fst <$> m.
Proof.
  intros Hk. rewrite <- list_fmap_compose. apply list_fmap_ext.
  intros i kv Hi. cbn. unfold keyed in Hk. rewrite Forall_forall in Hk.
  apply Hk. by eapply list_elem_of_lookup_2.
Qed.

End V1Log.

(** In the JSON-lines store, when [is_all_workers_done] holds of a log, every
    artifact a worker reported is ready: for every worker id other than the
    empty string, the list [get_worker_artifacts] returns is a sublist of the
    list [get_ready_artifacts] returns, and [get_ready_artifacts] returns no
    path besides these. *)
Theorem all_done_makes_every_artifact_ready (run_id : string) (events : list V1.Event) :
  V1.is_all_workers_done run_id events = true →
  (∀ worker_id, worker_id ≠ EmptyString →
     sublist (V1.get_worker_artifacts events worker_id) (V1.get_ready_artifacts events))
  ∧ (∀ p, p ∈ V1.get_ready_artifacts events
          ↔ ∃ worker_id, worker_id ≠ EmptyString
                         ∧ p ∈ V1.get_worker_artifacts events worker_id).
Proof.
  intros Hall. split.
  - intros k Hk. apply V1Log.omap_sublist. intros e p Hin He.
    destruct (bool_decide (V1.w e = Some k)) eqn:Hw; [|done].
    destruct (bool_decide (V1.t e = V1.ARTIFACT)) eqn:Ht; [|done].
    cbn in He. apply bool_decide_eq_true in Hw. rewrite Hw.
    rewrite bool_decide_true; [done|]. apply v1_done_workers.
    apply (V1Log.all_done_has_done_event run_id events e k Hall Hin).
    rewrite Hw. cbn. by rewrite decide_False.
  - intros p. split.
    + unfold V1.get_ready_artifacts. rewrite list_elem_of_omap.
      intros (e & Hin & He).
      destruct (bool_decide (V1.t e = V1.ARTIFACT)) eqn:Ht; [|done].
      destruct (V1.w e) as [k|] eqn:Hw; [|done].
      destruct (bool_decide (k ∈ _)) eqn:Hk in He; [|done].
      apply bool_decide_eq_true in Hk. apply v1_done_workers in Hk
        as (e' & _ & _ & Hw').
      exists k. split.
      * unfold V1.nonempty in Hw'. destruct (V1.w e') as [k'|]; [|done].
        case_decide; [done|]. by injection Hw' as ->.
      * unfold V1.get_worker_artifacts. apply list_elem_of_omap. exists e.
        split; [done|]. by rewrite Hw, bool_decide_true, Ht.
    + intros (k & Hk & Hp). unfold V1.get_worker_artifacts in Hp.
      apply list_elem_of_omap in Hp as (e & Hin & He).
      destruct (bool_decide (V1.w e = Some k)) eqn:Hw; [|done].
      destruct (bool_decide (V1.t e = V1.ARTIFACT)) eqn:Ht; [|done].
      cbn in He. apply bool_decide_eq_true in Hw.
      unfold V1.get_ready_artifacts. apply list_elem_of_omap. exists e.
      split; [done|]. rewrite Ht, Hw. rewrite bool_decide_true; [done|].
      apply v1_done_workers.
      apply (V1Log.all_done_has_done_event run_id events e k Hall Hin).
      rewrite Hw. cbn. by rewrite decide_False.
Qed.

Lemma all_done_makes_every_artifact_ready_witness :
  sublist (V1.get_worker_artifacts [artifact_report; done_event] "W-a")
    (V1.get_ready_artifacts [artifact_report; done_event]).
Proof.
  apply (proj1 (all_done_makes_every_artifact_ready "R1" [artifact_report; done_event]
                  eq_refl)).
  discriminate.
Defined.

(** The status [compute_status] computes from a log: [blocked_on] lists,
    each once, exactly the tasks for which the log holds a start event naming
    a worker and no done event naming a worker; and when [merge_ready] is set,
    [blocked_on] is empty and the log holds a done event for some task. *)
Theorem blocked_on_started_not_done (run_id : string) (events : list V1.Event) :
  let status := V1.compute_status run_id events in
  (∀ tk, tk ∈ V1.st_blocked_on status
         ↔ (∃ e, e ∈ events ∧ V1.reports V1.START tk e)
           ∧ ¬ ∃ e, e ∈ events ∧ V1.reports V1.DONE tk e)
  ∧ NoDup (V1.st_blocked_on status)
  ∧ (V1.st_merge_ready status = true →
     V1.st_blocked_on status = []
     ∧ ∃ e tk, e ∈ events ∧ V1.reports V1.DONE tk e).
Proof.
  cbn. fold V1.initial_vars. split; [|split].
  - intros tk. rewrite elem_of_elements, elem_of_difference.
    rewrite V1Log.tasks_done_foldl. split.
    + intros [Hp Hd]. split.
      * apply V1Log.tasks_pending_foldl_started in Hp as [Hp|?]; [|done].
        by apply elem_of_empty in Hp.
      * intros ?. apply Hd. by right.
    + intros [Hs Hd]. split.
      * apply V1Log.tasks_pending_foldl_kept; [by right|done].
      * intros [Hi|?]; [by apply elem_of_empty in Hi|done].
  - apply NoDup_elements.
  - intros Hready. apply bool_decide_eq_true in Hready as [Hp Hd]. split.
    + apply size_empty_inv in Hp. apply leibniz_equiv in Hp. rewrite Hp.
      apply elements_empty_iff. set_solver.
    + apply size_pos_elem_of in Hd as [tk Htk].
      apply V1Log.tasks_done_foldl in Htk as [Htk|(e & ? & ?)];
        [by apply elem_of_empty in Htk|]. by exists e, tk.
Qed.

(** The status [compute_status] computes from a log holds one dictionary per
    worker: the ids of [workers] are pairwise different, they are exactly the
    non-empty worker ids of the events of the log, and when events are added
    to the log the ids already listed keep their places (new workers are
    listed after them, in order of first appearance). *)
Theorem one_status_per_worker (run_id : string) (events later : list V1.Event) :
  let ids l := V1.ws_id <$> V1.st_workers (V1.compute_status run_id l) in
  NoDup (ids events)
  ∧ (∀ k, k ∈ ids events ↔ ∃ e, e ∈ events ∧ V1.nonempty (V1.w e) = Some k)
  ∧ ids events `prefix_of` ids (events ++ later).
Proof.
  cbn. fold V1.initial_vars.
  assert (∀ l, V1.ws_id <$> (snd <$> V1.workers_map (foldl V1.apply_event V1.initial_vars l))
               = fst <$> V1.workers_map (foldl V1.apply_event V1.initial_vars l)) as Hids.
  { intros l. apply V1Log.ids_keyed. apply V1Facts.foldl_apply_event_keyed. constructor. }
  rewrite !Hids.
  destruct (V1Log.keys_foldl events V1.initial_vars) as (Hnd & _ & Hmem);
    [constructor|].
  split; [done|]. split.
  - intros k. rewrite Hmem. split; [|by right].
    intros [Hk|?]; [by apply elem_of_nil in Hk|done].
  - rewrite foldl_app.
    by destruct (V1Log.keys_foldl later (foldl V1.apply_event V1.initial_vars events) Hnd)
      as (_ & Hpre & _).
Qed.

Module V1State.
Import V1 V1Facts.

Lemma state_apply_to_worker event x :
  ws_state (apply_to_worker event x) = default (ws_state x) (state_set_by event).
Proof.
  unfold apply_to_worker, state_set_by.
  destruct (t event); cbn; repeat (case_match; cbn); done.
Qed.

Lemma state_foldl events v k :
  let mine := filter (λ event, nonempty (w event) = Some k) events in
  ws_state <$> lookup_worker k (workers_map (foldl apply_event v events))
  = match lookup_worker k (workers_map v), mine with
    | None, [] => None
    | o, _ => Some (default (default "init" (ws_state <$> o))
                      (last (omap state_set_by mine)))
    end.
Proof.
  induction events as [|e events IH] using rev_ind; cbn zeta.
  - cbn. by destruct (lookup_worker k (workers_map v)).
  - rewrite foldl_app. cbn [foldl]. rewrite apply_event_lookup.
    rewrite filter_app, filter_cons, filter_nil. cbn zeta in IH.
    case_decide as Hw.
    + cbn [fmap option_fmap option_map]. rewrite state_apply_to_worker.
      rewrite omap_app. cbn [omap list_omap].
      assert (ws_state (default (initial_status k (task e))
                          (lookup_worker k (workers_map (foldl apply_event v events))))
              = default (default "init" (ws_state <$> lookup_worker k (workers_map v)))
                  (last (omap state_set_by
                           (filter (λ event, nonempty (w event) = Some k) events))))
        as Hprev.
      { destruct (lookup_worker k (workers_map (foldl apply_event v events))) as [x|]
          eqn:Hx; cbn in IH |- *.
        - destruct (lookup_worker k (workers_map v)),
            (filter (λ event, nonempty (w event) = Some k) events);
            cbn in IH |- *; congruence.
        - destruct (lookup_worker k (workers_map v)),
            (filter (λ event, nonempty (w event) = Some k) events);
            cbn in IH |- *; congruence. }
      rewrite Hprev.
      destruct (state_set_by e) as [st|]; cbn.
      * rewrite last_snoc. cbn.
        by destruct (lookup_worker k (workers_map v)),
             (filter (λ event, nonempty (w event) = Some k) events).
      * rewrite app_nil_r.
        by destruct (lookup_worker k (workers_map v)),
             (filter (λ event, nonempty (w event) = Some k) events).
    + rewrite app_nil_r. exact IH.
Qed.
End V1State.

(** In the status [compute_status] computes from a log, a worker that no
    event names is not reported, and the state reported for any other worker
    is the one assigned by the last of its events that assigns a state (a
    start: running; a progress report whose message mentions waiting:
    waiting; an error: error; a done: done), or [init] when none of its
    events assigns one. *)
Theorem reported_state_is_last_assigned (run_id : string) (events : list V1.Event)
    (k : string) :
  let mine := filter (λ event, V1.nonempty (V1.w event) = Some k) events in
  V1.state_of run_id events k
  = match mine with
    | [] => None
    | _ :: _ => Some (default "init" (last (omap V1.state_set_by mine)))
    end.
Proof.
  intros mine. rewrite V1Facts.state_of_lookup.
  rewrite (V1State.state_foldl events V1.initial_vars k). fold mine.
  by destruct mine.
Qed.
